(** * gotosafe-social: enum translation, S3 configuration, struct field extraction

    A shallow embedding of three pieces of the repository:

    - [TypeUtils]: the API-model to domain-model translation functions
      [APIVisToVis], [APIMarkerNameToMarkerName] and
      [APIFilterActionToFilterAction];
    - [S3]: [getS3Config] of the vendored go-storage S3 backend;
    - [Structr]: [find_field], [extract_fields] and [deref] of the vendored
      go-structr runtime, over an explicit model of reflect types and of the
      Go heap.

    Integers of fixed width are [Z] with the wrap-around written where the
    source computes; Go strings are [string] (sequences of 8-bit characters);
    byte slices are [list byte]. *)

From Stdlib Require Import ZArith Lia Ascii String.
From Stdlib.Strings Require Import Byte.
From stdpp Require Import base tactics option list gmap strings fin_maps.

Local Open Scope Z_scope.

(* ===================================================================== *)
(** ** internal/typeutils: API model to domain model                      *)
(* ===================================================================== *)

Module TypeUtils.
Section Frontend.

(** The named constants of [apimodel] and [gtsmodel] are declared outside
    the translated file; they are taken as parameters. [apimodel.Visibility],
    [apimodel.MarkerName], [apimodel.FilterAction], [gtsmodel.Visibility] and
    [gtsmodel.MarkerName] are string types (the functions return the
    untyped constant [""] for them); [gtsmodel.FilterAction] is only used
    through its constants. *)
Variables (apimodel_VisibilityPublic apimodel_VisibilityUnlisted
           apimodel_VisibilityPrivate apimodel_VisibilityMutualsOnly
           apimodel_VisibilityDirect : string).
Variables (gtsmodel_VisibilityPublic gtsmodel_VisibilityUnlocked
           gtsmodel_VisibilityFollowersOnly gtsmodel_VisibilityMutualsOnly
           gtsmodel_VisibilityDirect : string).
Variables (apimodel_MarkerNameHome apimodel_MarkerNameNotifications : string).
Variables (gtsmodel_MarkerNameHome gtsmodel_MarkerNameNotifications : string).
Variables (apimodel_FilterActionWarn apimodel_FilterActionHide : string).
Variable gtsmodel_FilterAction : Type.
Variables (gtsmodel_FilterActionNone gtsmodel_FilterActionWarn
           gtsmodel_FilterActionHide : gtsmodel_FilterAction).

(** A Go expression switch tries its cases from top to bottom and the
    function falls through to the final [return] when none matches. *)
Definition APIVisToVis (m : string) : string :=
  if String.eqb m apimodel_VisibilityPublic then gtsmodel_VisibilityPublic
  else if String.eqb m apimodel_VisibilityUnlisted then gtsmodel_VisibilityUnlocked
  else if String.eqb m apimodel_VisibilityPrivate then gtsmodel_VisibilityFollowersOnly
  else if String.eqb m apimodel_VisibilityMutualsOnly then gtsmodel_VisibilityMutualsOnly
  else if String.eqb m apimodel_VisibilityDirect then gtsmodel_VisibilityDirect
  else EmptyString.

Definition APIMarkerNameToMarkerName (m : string) : string :=
  if String.eqb m apimodel_MarkerNameHome then gtsmodel_MarkerNameHome
  else if String.eqb m apimodel_MarkerNameNotifications
       then gtsmodel_MarkerNameNotifications
  else EmptyString.

Definition APIFilterActionToFilterAction (m : string) : gtsmodel_FilterAction :=
  if String.eqb m apimodel_FilterActionWarn then gtsmodel_FilterActionWarn
  else if String.eqb m apimodel_FilterActionHide then gtsmodel_FilterActionHide
  else gtsmodel_FilterActionNone.

(** The enumerated API values, each with the domain value it stands for. *)
Definition visibility_table : list (string * string) :=
  [ (apimodel_VisibilityPublic, gtsmodel_VisibilityPublic);
    (apimodel_VisibilityUnlisted, gtsmodel_VisibilityUnlocked);
    (apimodel_VisibilityPrivate, gtsmodel_VisibilityFollowersOnly);
    (apimodel_VisibilityMutualsOnly, gtsmodel_VisibilityMutualsOnly);
    (apimodel_VisibilityDirect, gtsmodel_VisibilityDirect) ].

Definition marker_table : list (string * string) :=
  [ (apimodel_MarkerNameHome, gtsmodel_MarkerNameHome);
    (apimodel_MarkerNameNotifications, gtsmodel_MarkerNameNotifications) ].

Definition filter_action_table : list (string * gtsmodel_FilterAction) :=
  [ (apimodel_FilterActionWarn, gtsmodel_FilterActionWarn);
    (apimodel_FilterActionHide, gtsmodel_FilterActionHide) ].

(** What is asked of one translation function: on an enumerated input the
    paired domain value, on every other input the single result [unknown]. *)
Definition translates {B} (f : string → B) (table : list (string * B))
    (unknown : B) : Prop :=
  (∀ a b, (a, b) ∈ table → f a = b) ∧
  (∀ m, m ∉ table.*1 → f m = unknown).

Lemma eqb_false_of_ne (a b : string) : a ≠ b → String.eqb a b = false.
Proof. intros H. by apply String.eqb_neq. Qed.

Ltac split_distinct :=
  repeat match goal with
    | H : NoDup (_ :: _) |- _ => apply NoDup_cons in H as [? H]
    | H : _ ∉ _ :: _ |- _ => apply not_elem_of_cons in H as [? ?]
    end.

Ltac switch_cases :=
  repeat match goal with
    | |- context [String.eqb ?a ?a] => rewrite (String.eqb_refl a)
    | H : ?a ≠ ?b |- context [String.eqb ?a ?b] =>
        rewrite (eqb_false_of_ne a b H)
    | H : ?b ≠ ?a |- context [String.eqb ?a ?b] =>
        rewrite (eqb_false_of_ne a b (not_eq_sym H))
    end.

Ltac translation f :=
  let Hnd := fresh "Hnd" in
  unfold translates; cbn [fmap list_fmap fst];
  intros Hnd; split;
  [ intros a b Hin; split_distinct; unfold f;
    repeat (apply elem_of_cons in Hin as [Hin|Hin];
            [injection Hin as -> ->; by switch_cases|]);
    by apply elem_of_nil in Hin
  | intros m Hm; split_distinct; unfold f; by switch_cases ].

Lemma APIVisToVis_translates :
  NoDup visibility_table.*1 →
  translates APIVisToVis visibility_table EmptyString.
Proof. unfold visibility_table. translation APIVisToVis. Qed.

Lemma APIMarkerNameToMarkerName_translates :
  NoDup marker_table.*1 →
  translates APIMarkerNameToMarkerName marker_table EmptyString.
Proof. unfold marker_table. translation APIMarkerNameToMarkerName. Qed.

Lemma APIFilterActionToFilterAction_translates :
  NoDup filter_action_table.*1 →
  translates APIFilterActionToFilterAction filter_action_table
             gtsmodel_FilterActionNone.
Proof. unfold filter_action_table. translation APIFilterActionToFilterAction. Qed.

(** C8. Each of the three translation functions is a total function that
    returns, for an input equal to one of the enumerated API values, the
    corresponding domain value, and for every other input its one "unknown"
    result: the empty string for visibilities and marker names,
    [FilterActionNone] for filter actions. The API constants of one switch
    are distinct (the Go compiler refuses duplicate constant cases). *)
Theorem api_translations_total_with_unknown :
  NoDup visibility_table.*1 →
  NoDup marker_table.*1 →
  NoDup filter_action_table.*1 →
  translates APIVisToVis visibility_table EmptyString ∧
  translates APIMarkerNameToMarkerName marker_table EmptyString ∧
  translates APIFilterActionToFilterAction filter_action_table
             gtsmodel_FilterActionNone.
Proof.
  intros Hv Hm Hf. split; [|split].
  - by apply APIVisToVis_translates.
  - by apply APIMarkerNameToMarkerName_translates.
  - by apply APIFilterActionToFilterAction_translates.
Qed.

End Frontend.

(** The constants as GoToSocial declares them, for a concrete run. *)
Inductive FilterAction := FilterActionNone | FilterActionWarn | FilterActionHide.

Definition gts_APIVisToVis : string → string :=
  APIVisToVis "public" "unlisted" "private" "mutuals_only" "direct"
              "public" "unlocked" "followers_only" "mutuals_only" "direct".

Definition gts_APIMarkerNameToMarkerName : string → string :=
  APIMarkerNameToMarkerName "home" "notifications" "home" "notifications".

Definition gts_APIFilterActionToFilterAction : string → FilterAction :=
  APIFilterActionToFilterAction "warn" "hide" FilterAction
    FilterActionNone FilterActionWarn FilterActionHide.

Example gts_APIVisToVis_private : gts_APIVisToVis "private" = "followers_only".
Proof. reflexivity. Qed.

Example gts_APIVisToVis_other : gts_APIVisToVis "Public" = "".
Proof. reflexivity. Qed.

Example gts_APIFilterAction_other :
  gts_APIFilterActionToFilterAction "block" = FilterActionNone.
Proof. reflexivity. Qed.

Lemma api_translations_total_with_unknown_witness :
  translates gts_APIVisToVis
    (visibility_table "public" "unlisted" "private" "mutuals_only" "direct"
       "public" "unlocked" "followers_only" "mutuals_only" "direct") "" ∧
  translates gts_APIMarkerNameToMarkerName
    (marker_table "home" "notifications" "home" "notifications") "" ∧
  translates gts_APIFilterActionToFilterAction
    (filter_action_table "warn" "hide" FilterAction
       FilterActionWarn FilterActionHide) FilterActionNone.
Proof.
  apply (api_translations_total_with_unknown
           "public" "unlisted" "private" "mutuals_only" "direct"
           "public" "unlocked" "followers_only" "mutuals_only" "direct"
           "home" "notifications" "home" "notifications"
           "warn" "hide" FilterAction
           FilterActionNone FilterActionWarn FilterActionHide);
    (eapply bool_decide_unpack; vm_compute; exact I).
Defined.

Section Unknown.

Variables (apimodel_VisibilityPublic apimodel_VisibilityUnlisted
           apimodel_VisibilityPrivate apimodel_VisibilityMutualsOnly
           apimodel_VisibilityDirect : string).
Variables (gtsmodel_VisibilityPublic gtsmodel_VisibilityUnlocked
           gtsmodel_VisibilityFollowersOnly gtsmodel_VisibilityMutualsOnly
           gtsmodel_VisibilityDirect : string).
Variables (apimodel_MarkerNameHome apimodel_MarkerNameNotifications : string).
Variables (gtsmodel_MarkerNameHome gtsmodel_MarkerNameNotifications : string).
Variables (apimodel_FilterActionWarn apimodel_FilterActionHide : string).
Variable gtsmodel_FilterAction : Type.
Variables (gtsmodel_FilterActionNone gtsmodel_FilterActionWarn
           gtsmodel_FilterActionHide : gtsmodel_FilterAction).

Ltac unknown_iff f :=
  let m := fresh "m" in
  intros m; unfold f;
  repeat match goal with
    | |- context [String.eqb ?a ?b] => destruct (String.eqb_spec a b) as [->|?]
    end;
  (split; [intros ? ?|intros ?]);
  repeat match goal with
    | H : _ ∈ _ :: _ |- _ => apply elem_of_cons in H as [H|H]
    | H : _ ∈ [] |- _ => by apply elem_of_nil in H
    | H : _ ∉ _ :: _ |- _ => apply not_elem_of_cons in H as [? ?]
    end;
  try congruence.

(** X9. The "unknown" result is unambiguous. When no domain visibility and no
    domain marker name is the empty string and neither [FilterActionWarn]
    nor [FilterActionHide] is [FilterActionNone], each translation
    function returns its unknown result exactly on the inputs that are
    none of the enumerated API values. *)
Theorem api_translation_unknown_iff_not_enumerated :
  Forall (λ g, g ≠ EmptyString)
    [ gtsmodel_VisibilityPublic; gtsmodel_VisibilityUnlocked;
      gtsmodel_VisibilityFollowersOnly; gtsmodel_VisibilityMutualsOnly;
      gtsmodel_VisibilityDirect;
      gtsmodel_MarkerNameHome; gtsmodel_MarkerNameNotifications ] →
  gtsmodel_FilterActionWarn ≠ gtsmodel_FilterActionNone →
  gtsmodel_FilterActionHide ≠ gtsmodel_FilterActionNone →
  (∀ m, APIVisToVis apimodel_VisibilityPublic apimodel_VisibilityUnlisted
          apimodel_VisibilityPrivate apimodel_VisibilityMutualsOnly
          apimodel_VisibilityDirect
          gtsmodel_VisibilityPublic gtsmodel_VisibilityUnlocked
          gtsmodel_VisibilityFollowersOnly gtsmodel_VisibilityMutualsOnly
          gtsmodel_VisibilityDirect m = EmptyString ↔
        m ∉ [ apimodel_VisibilityPublic; apimodel_VisibilityUnlisted;
              apimodel_VisibilityPrivate; apimodel_VisibilityMutualsOnly;
              apimodel_VisibilityDirect ]) ∧
  (∀ m, APIMarkerNameToMarkerName apimodel_MarkerNameHome
          apimodel_MarkerNameNotifications
          gtsmodel_MarkerNameHome gtsmodel_MarkerNameNotifications m
          = EmptyString ↔
        m ∉ [ apimodel_MarkerNameHome; apimodel_MarkerNameNotifications ]) ∧
  (∀ m, APIFilterActionToFilterAction apimodel_FilterActionWarn
          apimodel_FilterActionHide gtsmodel_FilterAction
          gtsmodel_FilterActionNone gtsmodel_FilterActionWarn
          gtsmodel_FilterActionHide m = gtsmodel_FilterActionNone ↔
        m ∉ [ apimodel_FilterActionWarn; apimodel_FilterActionHide ]).
Proof.
  intros Hne Hw Hh.
  repeat (apply Forall_cons in Hne as [? Hne]).
  split; [|split].
  - unknown_iff APIVisToVis.
  - unknown_iff APIMarkerNameToMarkerName.
  - unknown_iff APIFilterActionToFilterAction.
Qed.

End Unknown.

Lemma api_translation_unknown_iff_not_enumerated_witness :
  (∀ m, gts_APIVisToVis m = "" ↔
        m ∉ [ "public"; "unlisted"; "private"; "mutuals_only"; "direct" ]) ∧
  (∀ m, gts_APIMarkerNameToMarkerName m = "" ↔ m ∉ [ "home"; "notifications" ]) ∧
  (∀ m, gts_APIFilterActionToFilterAction m = FilterActionNone ↔
        m ∉ [ "warn"; "hide" ]).
Proof.
  apply (api_translation_unknown_iff_not_enumerated
           "public" "unlisted" "private" "mutuals_only" "direct"
           "public" "unlocked" "followers_only" "mutuals_only" "direct"
           "home" "notifications" "home" "notifications"
           "warn" "hide" FilterAction
           FilterActionNone FilterActionWarn FilterActionHide).
  - repeat constructor; discriminate.
  - discriminate.
  - discriminate.
Defined.

End TypeUtils.

(* ===================================================================== *)
(** ** go-storage/s3: getS3Config                                         *)
(* ===================================================================== *)

Module S3.
Section Options.

(** The option structs of the minio client are declared outside the
    translated file: each is a type parameter together with its zero value
    (the composite literal [minio.X{}]). *)
Variables (minio_Options minio_GetObjectOptions minio_PutObjectOptions
           minio_PutObjectPartOptions minio_StatObjectOptions
           minio_RemoveObjectOptions : Type).
Variables (zero_Options : minio_Options)
          (zero_GetObjectOptions : minio_GetObjectOptions)
          (zero_PutObjectOptions : minio_PutObjectOptions)
          (zero_PutObjectPartOptions : minio_PutObjectPartOptions)
          (zero_StatObjectOptions : minio_StatObjectOptions)
          (zero_RemoveObjectOptions : minio_RemoveObjectOptions).

(** [PutChunkSize] is an int64 and [ListSize] an int; both are only compared
    and assigned, never computed with. *)
Record Config := mkConfig {
  CoreOpts : minio_Options;
  GetOpts : minio_GetObjectOptions;
  PutOpts : minio_PutObjectOptions;
  PutChunkSize : Z;
  PutChunkOpts : minio_PutObjectPartOptions;
  StatOpts : minio_StatObjectOptions;
  RemoveOpts : minio_RemoveObjectOptions;
  ListSize : Z
}.

Definition defaultConfig : Config :=
  {| CoreOpts := zero_Options;
     GetOpts := zero_GetObjectOptions;
     PutOpts := zero_PutObjectOptions;
     PutChunkOpts := zero_PutObjectPartOptions;
     PutChunkSize := 4 * 1024 * 1024;
     StatOpts := zero_StatObjectOptions;
     RemoveOpts := zero_RemoveObjectOptions;
     ListSize := 200 |}.

Definition DefaultConfig : Config := defaultConfig.

Definition minChunkSz : Z := 5 * 1024 * 1024.

Definition set_PutChunkSize (c : Config) (n : Z) : Config :=
  {| CoreOpts := CoreOpts c; GetOpts := GetOpts c; PutOpts := PutOpts c;
     PutChunkSize := n; PutChunkOpts := PutChunkOpts c;
     StatOpts := StatOpts c; RemoveOpts := RemoveOpts c;
     ListSize := ListSize c |}.

Definition set_ListSize (c : Config) (n : Z) : Config :=
  {| CoreOpts := CoreOpts c; GetOpts := GetOpts c; PutOpts := PutOpts c;
     PutChunkSize := PutChunkSize c; PutChunkOpts := PutChunkOpts c;
     StatOpts := StatOpts c; RemoveOpts := RemoveOpts c;
     ListSize := n |}.

(** [getS3Config(cfg *Config) Config]. The argument is a pointer: [None] is
    nil, [Some c] a pointer to a [Config] holding [c]. The function assigns
    through the pointer, so the result is the returned [Config] together
    with what the caller's [Config] holds afterwards. The returned composite
    literal names seven of the eight fields; the one it leaves out,
    [PutChunkOpts], is zero-valued. *)
Definition getS3Config (cfg : option Config) : Config * option Config :=
  match cfg with
  | None => (defaultConfig, None)
  | Some c =>
      let c := if PutChunkSize c <=? minChunkSz
               then set_PutChunkSize c minChunkSz else c in
      let c := if ListSize c <=? 0 then set_ListSize c 200 else c in
      ({| CoreOpts := CoreOpts c;
          GetOpts := GetOpts c;
          PutOpts := PutOpts c;
          PutChunkSize := PutChunkSize c;
          PutChunkOpts := zero_PutObjectPartOptions;
          ListSize := ListSize c;
          StatOpts := StatOpts c;
          RemoveOpts := RemoveOpts c |}, Some c)
  end.

(** The part of the frame property that the code does satisfy: the five
    option structs that the literal copies are preserved, and the two sizes
    are either kept or replaced by [minChunkSz] and 200. *)
Lemma getS3Config_copied_fields (c : Config) :
  let r := (getS3Config (Some c)).1 in
  CoreOpts r = CoreOpts c ∧ GetOpts r = GetOpts c ∧ PutOpts r = PutOpts c ∧
  StatOpts r = StatOpts c ∧ RemoveOpts r = RemoveOpts c ∧
  PutChunkSize r = Z.max (PutChunkSize c) minChunkSz ∧
  ListSize r = (if ListSize c <=? 0 then 200 else ListSize c).
Proof.
  unfold getS3Config.
  destruct (Z.leb_spec (PutChunkSize c) minChunkSz) as [Hc|Hc];
    destruct c as [co go po cs pco so ro ls]; cbn in *;
    destruct (Z.leb_spec ls 0); cbn; repeat split; lia.
Qed.

Lemma getS3Config_PutChunkOpts (c : Config) :
  PutChunkOpts (getS3Config (Some c)).1 = zero_PutObjectPartOptions.
Proof. reflexivity. Qed.

End Options.

Arguments CoreOpts {_ _ _ _ _ _} _.
Arguments GetOpts {_ _ _ _ _ _} _.
Arguments PutOpts {_ _ _ _ _ _} _.
Arguments PutChunkSize {_ _ _ _ _ _} _.
Arguments PutChunkOpts {_ _ _ _ _ _} _.
Arguments StatOpts {_ _ _ _ _ _} _.
Arguments RemoveOpts {_ _ _ _ _ _} _.
Arguments ListSize {_ _ _ _ _ _} _.
Arguments getS3Config {_ _ _ _ _ _} _ _ _ _ _ _ _.

(** One field of [minio.PutObjectPartOptions] is enough to tell a caller's
    options from the zero value. *)
Record PutObjectPartOptions := { DisableContentSha256 : bool }.

Definition custom_chunk_config : Config unit unit unit PutObjectPartOptions unit unit :=
  {| CoreOpts := (); GetOpts := (); PutOpts := ();
     PutChunkSize := 16 * 1024 * 1024;
     PutChunkOpts := {| DisableContentSha256 := true |};
     StatOpts := (); RemoveOpts := (); ListSize := 1000 |}.

(** C10 (fails on the code). For the non-nil configuration
    [custom_chunk_config], whose sizes are in range and whose [PutChunkOpts]
    is not the zero value, the returned [Config] keeps both sizes but does
    not agree with the input on [PutChunkOpts]: the field is reset to its
    zero value. *)
Theorem getS3Config_resets_PutChunkOpts :
  let r := (getS3Config () () () {| DisableContentSha256 := false |} () ()
                         (Some custom_chunk_config)).1 in
  PutChunkSize r = PutChunkSize custom_chunk_config ∧
  ListSize r = ListSize custom_chunk_config ∧
  PutChunkOpts r = {| DisableContentSha256 := false |} ∧
  PutChunkOpts r ≠ PutChunkOpts custom_chunk_config.
Proof. cbn. repeat split; discriminate. Qed.

(** *** Further properties of getS3Config *)

Section ConfigProperties.

Variables (minio_Options minio_GetObjectOptions minio_PutObjectOptions
           minio_PutObjectPartOptions minio_StatObjectOptions
           minio_RemoveObjectOptions : Type).
Variables (zero_Options : minio_Options)
          (zero_GetObjectOptions : minio_GetObjectOptions)
          (zero_PutObjectOptions : minio_PutObjectOptions)
          (zero_PutObjectPartOptions : minio_PutObjectPartOptions)
          (zero_StatObjectOptions : minio_StatObjectOptions)
          (zero_RemoveObjectOptions : minio_RemoveObjectOptions).

Local Abbreviation Config :=
  (Config minio_Options minio_GetObjectOptions minio_PutObjectOptions
          minio_PutObjectPartOptions minio_StatObjectOptions
          minio_RemoveObjectOptions).
Local Abbreviation getS3Config :=
  (getS3Config zero_Options zero_GetObjectOptions zero_PutObjectOptions
               zero_PutObjectPartOptions zero_StatObjectOptions
               zero_RemoveObjectOptions).

(** X10. Whatever the argument, nil included, the returned [Config] has a chunk
    size of at least 4 MiB and a list size of at least 1. For a non-nil
    argument the chunk size is at least [minChunkSz] (5 MiB); for nil it is
    the default of 4 MiB, which is below [minChunkSz]. *)
Theorem getS3Config_sizes (cfg : option Config) :
  let r := (getS3Config cfg).1 in
  4 * 1024 * 1024 ≤ PutChunkSize r ∧ 1 ≤ ListSize r ∧
  (cfg ≠ None → minChunkSz ≤ PutChunkSize r) ∧
  (cfg = None → PutChunkSize r = 4 * 1024 * 1024 ∧ PutChunkSize r < minChunkSz).
Proof.
  destruct cfg as [c|]; cbn.
  - unfold minChunkSz.
    destruct (Z.leb_spec (PutChunkSize c) (5 * 1024 * 1024));
      destruct c as [co go po cs pco so ro ls]; cbn in *;
      destruct (Z.leb_spec ls 0); cbn; repeat split; try lia; done.
  - unfold minChunkSz. repeat split; try lia; done.
Qed.

(** X11. [getS3Config] assigns through its pointer: after the call the caller's
    [Config] holds the same two sizes as the returned one, and its six
    option structs, [PutChunkOpts] included, are as they were. *)
Theorem getS3Config_writes_sizes_back (c : Config) :
  ∃ c', (getS3Config (Some c)).2 = Some c' ∧
    PutChunkSize c' = PutChunkSize (getS3Config (Some c)).1 ∧
    ListSize c' = ListSize (getS3Config (Some c)).1 ∧
    CoreOpts c' = CoreOpts c ∧ GetOpts c' = GetOpts c ∧ PutOpts c' = PutOpts c ∧
    PutChunkOpts c' = PutChunkOpts c ∧ StatOpts c' = StatOpts c ∧
    RemoveOpts c' = RemoveOpts c.
Proof.
  eexists. split; [reflexivity|].
  destruct c as [co go po cs pco so ro ls]; cbn.
  destruct (cs <=? minChunkSz); cbn; destruct (ls <=? 0); cbn; done.
Qed.

(** X12. Validation is idempotent: a [Config] returned for a non-nil argument is
    returned unchanged, and left unchanged, when it is passed back in. *)
Theorem getS3Config_idempotent (c : Config) :
  let r := (getS3Config (Some c)).1 in
  getS3Config (Some r) = (r, Some r).
Proof.
  destruct c as [co go po cs pco so ro ls]; cbn.
  destruct (Z.leb_spec cs minChunkSz); cbn;
    destruct (Z.leb_spec ls 0); cbn;
    repeat match goal with
    | |- context [?a <=? ?b] =>
        first [ rewrite (proj2 (Z.leb_le a b)) by (unfold minChunkSz in *; lia)
              | rewrite (proj2 (Z.leb_gt a b)) by (unfold minChunkSz in *; lia) ];
        cbn
    end; reflexivity.
Qed.

End ConfigProperties.

(** *** The storage: S3Storage and its operations *)

(** The structs of minio and of go-storage that the operations read or
    build, with the fields the source names. *)
Module ObjectPart.
Record t := mk {
  PartNumber : Z;
  ETag : string;
  Size : Z;
  ChecksumCRC32 : string;
  ChecksumCRC32C : string;
  ChecksumSHA1 : string;
  ChecksumSHA256 : string
}.
End ObjectPart.

Module CompletePart.
Record t := mk {
  PartNumber : Z;
  ETag : string;
  ChecksumCRC32 : string;
  ChecksumCRC32C : string;
  ChecksumSHA1 : string;
  ChecksumSHA256 : string
}.
End CompletePart.

Module UploadInfo.
Record t := mk { Size : Z }.
End UploadInfo.

Module ObjectInfo.
Record t := mk { Key : string; Size : Z }.
End ObjectInfo.

Module ListBucketV2Result.
Record t := mk {
  Contents : list ObjectInfo.t;
  NextContinuationToken : string;
  StartAfter : string
}.
End ListBucketV2Result.

Module Entry.
Record t := mk { Key : string; Size : Z }.
End Entry.

(** The result of running a Go function: it returns, it panics, or the
    model's fuel for an unbounded loop ran out. *)
Inductive result (A : Type) :=
| Returns (a : A)
| Panics (v : string)
| OutOfFuel.
Arguments Returns {A} a.
Arguments Panics {A} v.
Arguments OutOfFuel {A}.

(** An int and an int64 are 64 bits wide, two's complement. *)
Definition int64_wrap (z : Z) : Z := (z + 2 ^ 63) mod 2 ^ 64 - 2 ^ 63.

Section Storage.

Context {minio_Options minio_GetObjectOptions minio_PutObjectOptions
         minio_PutObjectPartOptions minio_StatObjectOptions
         minio_RemoveObjectOptions : Type}.
Variables (zero_Options : minio_Options)
          (zero_GetObjectOptions : minio_GetObjectOptions)
          (zero_PutObjectOptions : minio_PutObjectOptions)
          (zero_PutObjectPartOptions : minio_PutObjectPartOptions)
          (zero_StatObjectOptions : minio_StatObjectOptions)
          (zero_RemoveObjectOptions : minio_RemoveObjectOptions).

(** Go's [error] values, compared with [==] by the source; a nil error is
    [None]. The sentinel errors of [io] and of go-storage, the error
    predicates and wrappers of the s3 package (errors.go) and of
    go-storage/internal are declared outside the translated file. *)
Context {error : Type} `{!EqDecision error}.
Variables (io_EOF io_ErrUnexpectedEOF : error).
Variables (storage_ErrNotFound storage_ErrInvalidKey
           storage_ErrAlreadyExists : error).
Variable errors_New_bucket_does_not_exist : error.
Variables (isNotFoundError isObjectNameError isConflictError : error → bool).
Variable transformS3Error : error → error.
Variable internal_WrapErr : error → error → error.

Local Abbreviation Config :=
  (Config minio_Options minio_GetObjectOptions minio_PutObjectOptions
          minio_PutObjectPartOptions minio_StatObjectOptions
          minio_RemoveObjectOptions).

(** An [io.Reader] handed to the storage: the bytes it still delivers, the
    error it ends with ([None]: a clean [io.EOF]), and, when it implements
    [ReaderSize], what [Size()] answers. *)
Record reader := mk_reader {
  rd_data : list Byte.byte;
  rd_err : option error;
  rd_size : option Z
}.

(** [bytes.NewReader(b)]; a [*bytes.Reader] is a [ReaderSize]. *)
Definition bytes_NewReader (b : list Byte.byte) : reader :=
  {| rd_data := b; rd_err := None; rd_size := Some (Z.of_nat (length b)) |}.

(** [io.ReadFull(r, buf)] with [len(buf) = len]: the bytes read, the error,
    and the reader afterwards. Fewer than [len] bytes come with the
    reader's error, where [io.EOF] after at least one byte becomes
    [io.ErrUnexpectedEOF]. *)
Definition io_ReadFull (r : reader) (len : Z)
    : list Byte.byte * option error * reader :=
  let want := Z.to_nat len in
  if decide (want ≤ length (rd_data r))%nat
  then (take want (rd_data r), None,
        {| rd_data := drop want (rd_data r); rd_err := rd_err r;
           rd_size := rd_size r |})
  else
    let err := default io_EOF (rd_err r) in
    let err := if decide (err = io_EOF)
               then match rd_data r with [] => io_EOF | _ => io_ErrUnexpectedEOF end
               else err in
    (rd_data r, Some err,
     {| rd_data := []; rd_err := rd_err r; rd_size := rd_size r |}).

(** The [io.ReadCloser] that [GetObject] returns: its content, the error
    reading ends with, and what [Close] answers. *)
Record ReadCloser := mk_ReadCloser {
  rc_data : list Byte.byte;
  rc_err : option error;
  rc_close : option error
}.

(** [io.ReadAll]: everything up to the end or the first error; [io.EOF] is
    not reported. *)
Definition io_ReadAll (rc : ReadCloser) : list Byte.byte * option error :=
  (rc_data rc,
   match rc_err rc with
   | Some e => if decide (e = io_EOF) then None else Some e
   | None => None
   end).

(** One request to the outside, with its answer: the calls on the S3
    client, [Close] on a stream, and the [Step] callback of [WalkKeys]. *)
Inductive event :=
| BucketExists_call (bucket : string) (res : bool + error)
| GetObject_call (bucket key : string) (opts : minio_GetObjectOptions)
    (res : ReadCloser + error)
| Close_call (rc : ReadCloser) (res : option error)
| PutObject_call (bucket key : string) (r : reader) (size : Z)
    (md5Base64 sha256Hex : string) (opts : minio_PutObjectOptions)
    (res : UploadInfo.t + error)
| NewMultipartUpload_call (bucket key : string) (opts : minio_PutObjectOptions)
    (res : string + error)
| PutObjectPart_call (bucket key uploadID : string) (partID : Z)
    (data : list Byte.byte) (size : Z) (opts : minio_PutObjectPartOptions)
    (res : ObjectPart.t + error)
| CompleteMultipartUpload_call (bucket key uploadID : string)
    (parts : list CompletePart.t) (opts : minio_PutObjectOptions)
    (res : UploadInfo.t + error)
| StatObject_call (bucket key : string) (opts : minio_StatObjectOptions)
    (res : ObjectInfo.t + error)
| RemoveObject_call (bucket key : string) (opts : minio_RemoveObjectOptions)
    (res : option error)
| ListObjectsV2_call (bucket prefix startAfter token delimiter : string)
    (maxkeys : Z) (res : ListBucketV2Result.t + error)
| Step_call (entry : Entry.t) (res : option error).

(** [*minio.Core]: what the client answers to each call, given the
    requests made so far. *)
Record Core := mk_Core {
  BucketExists : list event → string → bool + error;
  GetObject : list event → string → string → minio_GetObjectOptions →
              ReadCloser + error;
  PutObject : list event → string → string → reader → Z → string → string →
              minio_PutObjectOptions → UploadInfo.t + error;
  NewMultipartUpload : list event → string → string → minio_PutObjectOptions →
                       string + error;
  PutObjectPart : list event → string → string → string → Z →
                  list Byte.byte → Z → minio_PutObjectPartOptions →
                  ObjectPart.t + error;
  CompleteMultipartUpload : list event → string → string → string →
                            list CompletePart.t → minio_PutObjectOptions →
                            UploadInfo.t + error;
  StatObject : list event → string → string → minio_StatObjectOptions →
               ObjectInfo.t + error;
  RemoveObject : list event → string → string → minio_RemoveObjectOptions →
                 option error;
  ListObjectsV2 : list event → string → string → string → string → string →
                  Z → ListBucketV2Result.t + error
}.

(** [minio.NewCore]. *)
Variable minio_NewCore : string → minio_Options → Core + error.

(** A program: from the requests made so far to its result and the
    requests made then. *)
Definition prog (A : Type) : Type := list event → result A * list event.

#[local] Instance prog_ret : MRet prog := λ A a log, (Returns a, log).
#[local] Instance prog_bind : MBind prog := λ A B k c log,
  match c log with
  | (Returns a, log) => k a log
  | (Panics v, log) => (Panics v, log)
  | (OutOfFuel, log) => (OutOfFuel, log)
  end.

Definition perform {R} (answer : list event → R) (record : R → event) : prog R :=
  λ log, let r := answer log in (Returns r, log ++ [record r]).

Definition panic {A} (v : string) : prog A := λ log, (Panics v, log).
Definition out_of_fuel {A} : prog A := λ log, (OutOfFuel, log).

Record S3Storage := mk_S3Storage {
  client : Core;
  bucket : string;
  config : Config
}.


Definition Client (st : S3Storage) : Core := client st.

Definition Clean (st : S3Storage) : prog (option error) := mret None.

(** [ReadStream]. *)
Definition ReadStream (st : S3Storage) (key : string) : prog (ReadCloser + error) :=
  res ← perform (λ log, GetObject (client st) log (bucket st) key
                                  (GetOpts (config st)))
                (GetObject_call (bucket st) key (GetOpts (config st)));
  match res with
  | inr err =>
      let err :=
        if isNotFoundError err then internal_WrapErr err storage_ErrNotFound
        else if negb (isObjectNameError err)
             then internal_WrapErr err storage_ErrInvalidKey
             else err in
      mret (inr (transformS3Error err))
  | inl rc => mret (inl rc)
  end.

(** [ReadBytes]. *)
Definition ReadBytes (st : S3Storage) (key : string)
    : prog (list Byte.byte + error) :=
  res ← ReadStream st key;
  match res with
  | inr err => mret (inr err)
  | inl rc =>
      let '(data, err) := io_ReadAll rc in
      match err with
      | Some err =>
          _ ← perform (λ _, rc_close rc) (Close_call rc);
          mret (inr err)
      | None =>
          err ← perform (λ _, rc_close rc) (Close_call rc);
          match err with
          | Some err => mret (inr err)
          | None => mret (inl data)
          end
      end
  end.

Definition complete_part (pt : ObjectPart.t) : CompletePart.t :=
  {| CompletePart.PartNumber := ObjectPart.PartNumber pt;
     CompletePart.ETag := ObjectPart.ETag pt;
     CompletePart.ChecksumCRC32 := ObjectPart.ChecksumCRC32 pt;
     CompletePart.ChecksumCRC32C := ObjectPart.ChecksumCRC32C pt;
     CompletePart.ChecksumSHA1 := ObjectPart.ChecksumSHA1 pt;
     CompletePart.ChecksumSHA256 := ObjectPart.ChecksumSHA256 pt |}.

(** How the loop of [WriteStream] is left: by [return 0, err], or at its
    end with the total and the parts. *)
Inductive loop_exit :=
| loop_return (err : error)
| loop_end (total : Z) (parts : list CompletePart.t).

(** The loop of [WriteStream], one unit of fuel for an iteration. [chunk]
    is the length of the buffer. *)
Fixpoint upload_parts (fuel : nat) (st : S3Storage) (key uploadID : string)
    (chunk : Z) (r : reader) (index total : Z) (parts : list CompletePart.t)
    : prog loop_exit :=
  match fuel with
  | O => out_of_fuel
  | S fuel =>
      let '(data, err, r) := io_ReadFull r chunk in
      let put (done : bool) : prog loop_exit :=
        res ← perform
                (λ log, PutObjectPart (client st) log (bucket st) key uploadID
                          index data (Z.of_nat (length data))
                          (PutChunkOpts (config st)))
                (PutObjectPart_call (bucket st) key uploadID index data
                   (Z.of_nat (length data)) (PutChunkOpts (config st)));
        match res with
        | inr err => mret (loop_return err)
        | inl pt =>
            let parts := parts ++ [complete_part pt] in
            let index := int64_wrap (index + 1) in
            let total := int64_wrap (total + ObjectPart.Size pt) in
            if done then mret (loop_end total parts)
            else upload_parts fuel st key uploadID chunk r index total parts
        end in
      match err with
      | None => put false
      | Some err =>
          if decide (err = io_EOF) then mret (loop_end total parts)
          else if decide (err = io_ErrUnexpectedEOF) then put true
          else mret (loop_return err)
      end
  end.

(** [WriteStream]. *)
Definition WriteStream (fuel : nat) (st : S3Storage) (key : string) (r : reader)
    : prog (Z + error) :=
  match rd_size r with
  | Some size =>
      res ← perform
              (λ log, PutObject (client st) log (bucket st) key r size "" ""
                                (PutOpts (config st)))
              (PutObject_call (bucket st) key r size "" "" (PutOpts (config st)));
      match res with
      | inr err =>
          let err :=
            if isConflictError err
            then internal_WrapErr err storage_ErrAlreadyExists
            else if negb (isObjectNameError err)
                 then internal_WrapErr err storage_ErrInvalidKey
                 else err in
          mret (inr err)
      | inl info => mret (inl (UploadInfo.Size info))
      end
  | None =>
      res ← perform
              (λ log, NewMultipartUpload (client st) log (bucket st) key
                                         (PutOpts (config st)))
              (NewMultipartUpload_call (bucket st) key (PutOpts (config st)));
      match res with
      | inr err =>
          let err :=
            if isConflictError err
            then internal_WrapErr err storage_ErrAlreadyExists
            else if negb (isObjectNameError err)
                 then internal_WrapErr err storage_ErrInvalidKey
                 else err in
          mret (inr (transformS3Error err))
      | inl uploadID =>
          if PutChunkSize (config st) <? 0
          then panic "makeslice: len out of range"
          else
            exit ← upload_parts fuel st key uploadID (PutChunkSize (config st))
                                r 1 0 [];
            match exit with
            | loop_return err => mret (inr err)
            | loop_end total parts =>
                res ← perform
                        (λ log, CompleteMultipartUpload (client st) log
                                  (bucket st) key uploadID parts
                                  (PutOpts (config st)))
                        (CompleteMultipartUpload_call (bucket st) key uploadID
                           parts (PutOpts (config st)));
                match res with
                | inr err => mret (inr err)
                | inl _ => mret (inl total)
                end
            end
      end
  end.

(** [WriteBytes]. *)
Definition WriteBytes (fuel : nat) (st : S3Storage) (key : string)
    (value : list Byte.byte) : prog (Z + error) :=
  WriteStream fuel st key (bytes_NewReader value).

(** [Stat]: an entry, or nil without error, or an error. *)
Definition Stat (st : S3Storage) (key : string)
    : prog (option Entry.t + error) :=
  res ← perform (λ log, StatObject (client st) log (bucket st) key
                                   (StatOpts (config st)))
                (StatObject_call (bucket st) key (StatOpts (config st)));
  match res with
  | inr err =>
      if isNotFoundError err then mret (inl None)
      else if negb (isObjectNameError err)
           then mret (inr (internal_WrapErr err storage_ErrInvalidKey))
           else mret (inr err)
  | inl stat =>
      mret (inl (Some {| Entry.Key := key; Entry.Size := ObjectInfo.Size stat |}))
  end.

(** [Remove]. *)
Definition Remove (st : S3Storage) (key : string) : prog (option error) :=
  res ← perform (λ log, StatObject (client st) log (bucket st) key
                                   (StatOpts (config st)))
                (StatObject_call (bucket st) key (StatOpts (config st)));
  match res with
  | inr err =>
      if isNotFoundError err
      then mret (Some (internal_WrapErr err storage_ErrNotFound))
      else if negb (isObjectNameError err)
           then mret (Some (internal_WrapErr err storage_ErrInvalidKey))
           else mret (Some err)
  | inl _ =>
      err ← perform (λ log, RemoveObject (client st) log (bucket st) key
                                         (RemoveOpts (config st)))
                    (RemoveObject_call (bucket st) key (RemoveOpts (config st)));
      match err with
      | Some err =>
          if isNotFoundError err
          then mret (Some (internal_WrapErr err storage_ErrNotFound))
          else if negb (isObjectNameError err)
               then mret (Some (internal_WrapErr err storage_ErrInvalidKey))
               else mret (Some err)
      | None => mret None
      end
  end.

(** [storage.WalkKeysOpts]: [Filter] may be nil; [Step] is a callback whose
    answer, like the client's, may depend on what happened before. *)
Record WalkKeysOpts := mk_WalkKeysOpts {
  Prefix : string;
  Filter : option (string → bool);
  Step : option (list event → Entry.t → option error)
}.

Definition filtered (filter : option (string → bool)) (key : string) : bool :=
  match filter with
  | Some f => f key
  | None => false
  end.

Definition entry_of (obj : ObjectInfo.t) : Entry.t :=
  {| Entry.Key := ObjectInfo.Key obj; Entry.Size := ObjectInfo.Size obj |}.

(** The loop over [result.Contents]: [Some err] when [Step] fails. *)
Fixpoint walk_contents (filter : option (string → bool))
    (step : list event → Entry.t → option error) (objs : list ObjectInfo.t)
    : prog (option error) :=
  match objs with
  | [] => mret None
  | obj :: objs =>
      if filtered filter (ObjectInfo.Key obj) then walk_contents filter step objs
      else
        err ← perform (λ log, step log (entry_of obj)) (Step_call (entry_of obj));
        match err with
        | Some err => mret (Some err)
        | None => walk_contents filter step objs
        end
  end.

(** The loop [for { ... }] of [WalkKeys], one unit of fuel for a page. *)
Fixpoint walk_pages (fuel : nat) (st : S3Storage) (prefix : string)
    (filter : option (string → bool))
    (step : list event → Entry.t → option error) (prev token : string)
    : prog (option error) :=
  match fuel with
  | O => out_of_fuel
  | S fuel =>
      res ← perform
              (λ log, ListObjectsV2 (client st) log (bucket st) prefix prev
                                    token "" (ListSize (config st)))
              (ListObjectsV2_call (bucket st) prefix prev token ""
                 (ListSize (config st)));
      match res with
      | inr err => mret (Some err)
      | inl page =>
          err ← walk_contents filter step (ListBucketV2Result.Contents page);
          match err with
          | Some err => mret (Some err)
          | None =>
              if String.eqb (ListBucketV2Result.NextContinuationToken page) ""
              then mret None
              else walk_pages fuel st prefix filter step
                     (ListBucketV2Result.StartAfter page)
                     (ListBucketV2Result.NextContinuationToken page)
          end
      end
  end.

(** [WalkKeys]. *)
Definition WalkKeys (fuel : nat) (st : S3Storage) (opts : WalkKeysOpts)
    : prog (option error) :=
  match Step opts with
  | None => panic "nil step fn"
  | Some step => walk_pages fuel st (Prefix opts) (Filter opts) step "" ""
  end.

(** *** Properties of the storage operations *)



(** X14. [ReadBytes] closes the stream it opened exactly once on every path, and
    returns data only when both reading and closing succeeded. When
    [GetObject] fails nothing is closed. A read error wins over a close
    error; [io.EOF] is no read error. *)
Theorem ReadBytes_closes_once st key log :
  match GetObject (client st) log (bucket st) key (GetOpts (config st)) with
  | inr e =>
      ∃ e', ReadBytes st key log =
              (Returns (inr e'),
               log ++ [GetObject_call (bucket st) key (GetOpts (config st)) (inr e)])
  | inl rc =>
      ∃ res, ReadBytes st key log =
               (Returns res,
                log ++ [GetObject_call (bucket st) key (GetOpts (config st)) (inl rc);
                        Close_call rc (rc_close rc)]) ∧
        (∀ data, res = inl data ↔
           data = rc_data rc ∧ rc_close rc = None ∧
           (rc_err rc = None ∨ rc_err rc = Some io_EOF)) ∧
        (∀ e, rc_err rc = Some e → e ≠ io_EOF → res = inr e)
  end.
Proof.
  unfold ReadBytes, ReadStream, mbind, prog_bind, perform; cbn.
  destruct (GetObject _ _ _ _ _) as [rc|e]; cbn; [|by eexists].
  unfold io_ReadAll.
  destruct (rc_err rc) as [e|] eqn:Herr;
    [destruct (decide (e = io_EOF)) as [->|Hne]|];
    destruct (rc_close rc) as [c|] eqn:Hc; cbn; unfold mret, prog_ret;
    rewrite <- app_assoc; cbn; eexists; (split; [reflexivity|]);
    naive_solver.
Qed.

(** X15. [Remove] looks the key up the way [Stat] does and deletes only what it
    found. On the keys that [Stat] reports as absent (nil entry, nil
    error), and only there, [Remove] fails with the not-found error wrapped
    as [storage.ErrNotFound] after that one request; [RemoveObject] is
    requested exactly when [Stat] returns an entry. *)
Theorem Remove_follows_Stat st key log :
  let stat_call := StatObject_call (bucket st) key (StatOpts (config st)) in
  ((∃ log', Stat st key log = (Returns (inl None), log')) ↔
   ∃ e, isNotFoundError e = true ∧
        Remove st key log =
          (Returns (Some (internal_WrapErr e storage_ErrNotFound)),
           log ++ [stat_call (inr e)])) ∧
  ((∃ entry log', Stat st key log = (Returns (inl (Some entry)), log')) ↔
   ∃ info res,
     Remove st key log =
       (Returns res,
        log ++ [stat_call (inl info);
                RemoveObject_call (bucket st) key (RemoveOpts (config st))
                  (RemoveObject (client st) (log ++ [stat_call (inl info)])
                     (bucket st) key (RemoveOpts (config st)))]) ∧
     (res = None ↔
      RemoveObject (client st) (log ++ [stat_call (inl info)])
        (bucket st) key (RemoveOpts (config st)) = None)).
Proof.
  cbn. unfold Stat, Remove, mbind, prog_bind, perform, mret, prog_ret; cbn.
  destruct (StatObject _ _ _ _ _) as [info|e] eqn:Hs; cbn.
  - split.
    + split; [by intros (? & [= ])|].
      intros (e & _ & H). exfalso.
      destruct (RemoveObject _ _ _ _ _) as [r|]; cbn in H;
        [destruct (isNotFoundError r); [|destruct (negb (isObjectNameError r))]|];
        cbn in H; apply (f_equal (λ p, length p.2)) in H; cbn in H;
        rewrite !length_app in H; cbn in H; lia.
    + split; [|by eauto]. intros _. exists info.
      rewrite <- app_assoc. cbn.
      destruct (RemoveObject _ _ _ _ _) as [r|]; cbn;
        [destruct (isNotFoundError r); [|destruct (negb (isObjectNameError r))]|];
        cbn; eexists; split; done.
  - split.
    + destruct (isNotFoundError e) eqn:Hnf; cbn; [split; by eauto|].
      split.
      * destruct (negb (isObjectNameError e)); cbn; by intros (? & [= ]).
      * intros (e' & He' & H). exfalso.
        destruct (negb (isObjectNameError e)); cbn in H;
          injection H as _ H; apply app_inv_head in H;
          injection H as <-; congruence.
    + split.
      * destruct (isNotFoundError e); [|destruct (negb (isObjectNameError e))];
          cbn; by intros (? & ? & [= ]).
      * intros (info & res & H & _). exfalso.
        destruct (isNotFoundError e); [|destruct (negb (isObjectNameError e))];
          cbn in H; apply (f_equal (λ p, length p.2)) in H; cbn in H;
          rewrite !length_app in H; cbn in H; lia.
Qed.

(** X17. A reader that knows its size is written with one [PutObject] request
    that declares this size, whatever the chunk size and without a
    multipart upload; the answer's size is what is returned. [WriteBytes]
    always writes this way, declaring the length of the value. *)
Theorem WriteStream_sized_is_one_put fuel st key r size log :
  rd_size r = Some size →
  let answer := PutObject (client st) log (bucket st) key r size "" ""
                          (PutOpts (config st)) in
  ∃ res,
    WriteStream fuel st key r log =
      (Returns res,
       log ++ [PutObject_call (bucket st) key r size "" "" (PutOpts (config st))
                 answer]) ∧
    (∀ info, answer = inl info → res = inl (UploadInfo.Size info)) ∧
    (∀ e, answer = inr e → ∃ e', res = inr e') ∧
  ∀ value, ∃ res',
    WriteBytes fuel st key value log =
      (Returns res',
       log ++ [PutObject_call (bucket st) key (bytes_NewReader value)
                 (Z.of_nat (length value)) "" "" (PutOpts (config st))
                 (PutObject (client st) log (bucket st) key
                    (bytes_NewReader value) (Z.of_nat (length value)) "" ""
                    (PutOpts (config st)))]).
Proof.
  intros Hsize answer. unfold WriteBytes, WriteStream. rewrite Hsize. cbn.
  unfold mbind, prog_bind, perform; cbn. fold answer.
  destruct answer as [info|e]; cbn.
  - eexists. split; [done|]. split; [by intros ? [= <-]|]. split; [done|].
    intros value. destruct (PutObject _ _ _ _ _ _ _ _ _); by eexists.
  - eexists. split; [done|]. split; [done|]. split; [by eauto|].
    intros value. destruct (PutObject _ _ _ _ _ _ _ _ _); by eexists.
Qed.

(** **** WriteStream: the multipart upload *)

(** A byte sequence cut into pieces of [c] bytes, the last one shorter
    when the length is no multiple of [c]. *)
Fixpoint chunks_upto (n c : nat) (data : list Byte.byte) : list (list Byte.byte) :=
  match n with
  | O => []
  | S n =>
      match data with
      | [] => []
      | _ => take c data :: chunks_upto n c (drop c data)
      end
  end.

Definition chunks (c : Z) (data : list Byte.byte) : list (list Byte.byte) :=
  chunks_upto (length data) (Z.to_nat c) data.

(** The [PutObjectPart] requests for the pieces [cs], numbered from
    [index], with the parts [pts] as answers. *)
Fixpoint part_events (st : S3Storage) (key uploadID : string) (index : Z)
    (cs : list (list Byte.byte)) (pts : list ObjectPart.t) : list event :=
  match cs, pts with
  | c :: cs, pt :: pts =>
      PutObjectPart_call (bucket st) key uploadID index c (Z.of_nat (length c))
        (PutChunkOpts (config st)) (inl pt)
      :: part_events st key uploadID (index + 1) cs pts
  | _, _ => []
  end.

(** The bytes handed to the client in part requests, and whether a request
    was acknowledged as storing the whole object. *)
Definition payload (ev : event) : list Byte.byte :=
  match ev with
  | PutObjectPart_call _ _ _ _ data _ _ _ => data
  | _ => []
  end.

Definition sent (tr : list event) : list Byte.byte := concat (payload <$> tr).

Definition finished (ev : event) : bool :=
  match ev with
  | PutObject_call _ _ _ _ _ _ _ (inl _) => true
  | CompleteMultipartUpload_call _ _ _ _ _ (inl _) => true
  | _ => false
  end.

Definition add_size (total : Z) (pt : ObjectPart.t) : Z :=
  int64_wrap (total + ObjectPart.Size pt).

Lemma int64_wrap_small z : - 2 ^ 63 ≤ z < 2 ^ 63 → int64_wrap z = z.
Proof. intros H. unfold int64_wrap. rewrite Z.mod_small; lia. Qed.

Lemma chunks_upto_enough c : ∀ n m data,
  (1 ≤ c)%nat → (length data ≤ n)%nat → (length data ≤ m)%nat →
  chunks_upto n c data = chunks_upto m c data.
Proof.
  induction n as [|n IH]; intros m data Hc Hn Hm.
  - destruct data; [by destruct m|cbn in Hn; lia].
  - destruct data as [|b data]; [by destruct m|].
    destruct m as [|m]; [cbn in Hm; lia|]. cbn [chunks_upto].
    f_equal. apply IH; [done|..]; rewrite length_drop; cbn in *; lia.
Qed.

Lemma chunks_nil c : chunks c [] = [].
Proof. done. Qed.

Lemma chunks_step c data :
  1 ≤ c → data ≠ [] →
  chunks c data = take (Z.to_nat c) data :: chunks c (drop (Z.to_nat c) data).
Proof.
  intros Hc Hd. unfold chunks. destruct data as [|b data]; [done|].
  cbn [length chunks_upto]. f_equal.
  apply chunks_upto_enough; [lia|..]; rewrite length_drop; cbn; lia.
Qed.

Lemma chunks_upto_concat c : ∀ n data,
  (1 ≤ c)%nat → (length data ≤ n)%nat → concat (chunks_upto n c data) = data.
Proof.
  induction n as [|n IH]; intros data Hc Hn.
  - destruct data; [done|cbn in Hn; lia].
  - destruct data as [|b data]; [done|]. cbn [chunks_upto concat].
    rewrite IH; [apply take_drop|done|].
    rewrite length_drop. cbn in *. lia.
Qed.

Lemma chunks_upto_sizes c : ∀ n data,
  (1 ≤ c)%nat → (length data ≤ n)%nat →
  Forall (λ ch, (0 < length ch ≤ c)%nat) (chunks_upto n c data) ∧
  ∀ i ch, chunks_upto n c data !! i = Some ch →
          (S i < length (chunks_upto n c data))%nat → length ch = c.
Proof.
  induction n as [|n IH]; intros data Hc Hn.
  - destruct data; cbn; (split; [constructor|done]).
  - destruct data as [|b data]; [cbn; split; [constructor|done]|].
    cbn [chunks_upto].
    destruct (IH (drop c (b :: data)) Hc) as [IH1 IH2].
    { rewrite length_drop. cbn in *. lia. }
    split.
    + constructor; [|done]. rewrite length_take. cbn. lia.
    + intros [|i] ch Hi Hlen; cbn in Hi, Hlen.
      * injection Hi as <-. rewrite length_take.
        destruct (chunks_upto n c (drop c (b :: data))) as [|x xs] eqn:Hrest;
          [cbn in Hlen; lia|].
        destruct n as [|n']; [done|]. cbn [chunks_upto] in Hrest.
        destruct (drop c (b :: data)) as [|y ys] eqn:Hdrop; [done|].
        assert (length (drop c (b :: data)) ≠ 0)%nat as Hnz by (by rewrite Hdrop).
        rewrite length_drop in Hnz. lia.
      * apply (IH2 i ch Hi). lia.
Qed.

Lemma add_sizes_honest (cs : list (list Byte.byte)) :
  ∀ pts total,
    Forall2 (λ c pt, ObjectPart.Size pt = Z.of_nat (length c)) cs pts →
    0 ≤ total → total + Z.of_nat (length (concat cs)) < 2 ^ 63 →
    foldl add_size total pts = total + Z.of_nat (length (concat cs)).
Proof.
  induction cs as [|c cs IH]; intros pts total Hall H0 Hlt.
  - apply Forall2_nil_inv_l in Hall as ->. cbn. lia.
  - apply Forall2_cons_inv_l in Hall as (pt & pts' & Hpt & Hall & ->).
    cbn [foldl concat] in *. rewrite length_app in Hlt.
    unfold add_size at 2. rewrite Hpt, int64_wrap_small by lia.
    rewrite IH; [rewrite length_app; lia|done|lia|lia].
Qed.

Section Upload.

Variables (st : S3Storage) (key uploadID : string) (chunk : Z).
Hypothesis chunk_positive : 1 ≤ chunk.

Lemma upload_parts_returns fuel :
  ∀ r index total parts log,
    (length (rd_data r) < fuel)%nat →
    ∃ exit log',
      upload_parts fuel st key uploadID chunk r index total parts log
        = (Returns exit, log').
Proof.
  induction fuel as [|fuel IH]; intros r index total parts log Hfuel; [lia|].
  cbn [upload_parts]. unfold io_ReadFull.
  destruct (decide (Z.to_nat chunk ≤ length (rd_data r))%nat) as [Hfull|Hshort].
  - unfold mbind, prog_bind, perform; cbn.
    destruct (PutObjectPart _ _ _ _ _ _ _ _ _) as [pt|e]; cbn; [|by eauto].
    apply IH. cbn. rewrite length_drop. lia.
  - destruct (decide (default io_EOF (rd_err r) = io_EOF)) as [He|He].
    + destruct (rd_data r) as [|b data]; cbn.
      * rewrite decide_True by done. by eauto.
      * destruct (decide (io_ErrUnexpectedEOF = io_EOF)); [by eauto|].
        rewrite decide_True by done.
        unfold mbind, prog_bind, perform; cbn.
        destruct (PutObjectPart _ _ _ _ _ _ _ _ _); cbn; by eauto.
    + cbn. rewrite decide_False by done.
      destruct (decide (default io_EOF (rd_err r) = io_ErrUnexpectedEOF));
        [|by eauto].
      unfold mbind, prog_bind, perform; cbn.
      destruct (PutObjectPart _ _ _ _ _ _ _ _ _); cbn; by eauto.
Qed.

Lemma upload_parts_more_fuel fuel :
  ∀ r index total parts log exit log' k,
    upload_parts fuel st key uploadID chunk r index total parts log
      = (Returns exit, log') →
    upload_parts (fuel + k) st key uploadID chunk r index total parts log
      = (Returns exit, log').
Proof.
  induction fuel as [|fuel IH]; intros r index total parts log exit log' k H;
    [done|].
  cbn [upload_parts Nat.add] in *.
  destruct (io_ReadFull r chunk) as [[data err] r'].
  unfold mbind, prog_bind, perform in *; cbn in *.
  destruct err as [err|].
  - destruct (decide (err = io_EOF)); [done|].
    destruct (decide (err = io_ErrUnexpectedEOF)); [|done].
    by destruct (PutObjectPart _ _ _ _ _ _ _ _ _).
  - destruct (PutObjectPart _ _ _ _ _ _ _ _ _); [|done]. by apply IH.
Qed.

Lemma upload_parts_trace fuel :
  ∀ r index total parts log out log',
    upload_parts fuel st key uploadID chunk r index total parts log
      = (out, log') →
    ∃ new, log' = log ++ new ∧ sent new `prefix_of` rd_data r ∧
           Forall (λ ev, finished ev = false) new.
Proof.
  induction fuel as [|fuel IH]; intros r index total parts log out log' H.
  { injection H as <- <-. exists []. rewrite app_nil_r.
    repeat split; [apply prefix_nil|constructor]. }
  cbn [upload_parts] in H. unfold io_ReadFull in H.
  assert (Hone : ∀ data pt_or_err,
    sent [PutObjectPart_call (bucket st) key uploadID index data
            (Z.of_nat (length data)) (PutChunkOpts (config st)) pt_or_err] = data)
    by (intros; cbn; apply app_nil_r).
  destruct (decide (Z.to_nat chunk ≤ length (rd_data r))%nat) as [Hfull|Hshort].
  - unfold mbind, prog_bind, perform in H; cbn in H.
    destruct (PutObjectPart _ _ _ _ _ _ _ _ _) as [pt|e] eqn:Hput; cbn in H.
    + apply IH in H as (new & -> & Hpre & Hfin). cbn in Hpre.
      eexists (_ :: new). rewrite <- app_assoc. split; [done|]. split.
      * unfold sent. cbn. fold (sent new).
        rewrite <- (take_drop (Z.to_nat chunk) (rd_data r)) at 2.
        by apply prefix_app.
      * by constructor.
    + injection H as <- <-. eexists [_]. split; [done|]. split.
      * rewrite Hone. apply prefix_take.
      * by repeat constructor.
  - destruct (decide (default io_EOF (rd_err r) = io_EOF)) as [He|He].
    + destruct (rd_data r) as [|b data] eqn:Hdata; cbn in H.
      * rewrite decide_True in H by done. injection H as <- <-.
        exists []. rewrite app_nil_r. by repeat split; [|constructor].
      * destruct (decide (io_ErrUnexpectedEOF = io_EOF)).
        { injection H as <- <-. exists []. rewrite app_nil_r.
          repeat split; [apply prefix_nil|constructor]. }
        rewrite decide_True in H by done.
        unfold mbind, prog_bind, perform in H; cbn in H.
        destruct (PutObjectPart _ _ _ _ _ _ _ _ _); cbn in H;
          injection H as <- <-; eexists [_]; (split; [done|]);
          rewrite Hone; by repeat constructor.
    + cbn in H. rewrite decide_False in H by done.
      destruct (decide (default io_EOF (rd_err r) = io_ErrUnexpectedEOF)).
      * unfold mbind, prog_bind, perform in H; cbn in H.
        destruct (PutObjectPart _ _ _ _ _ _ _ _ _); cbn in H;
          injection H as <- <-; eexists [_]; (split; [done|]);
          rewrite Hone; by repeat constructor.
      * injection H as <- <-. exists []. rewrite app_nil_r.
        repeat split; [apply prefix_nil|constructor].
Qed.

Hypothesis EOF_distinct : io_EOF ≠ io_ErrUnexpectedEOF.

Lemma upload_parts_end fuel :
  ∀ r index total parts log total' parts' log',
    rd_err r = None →
    0 ≤ index → index + Z.of_nat (length (rd_data r)) < 2 ^ 63 →
    upload_parts fuel st key uploadID chunk r index total parts log
      = (Returns (loop_end total' parts'), log') →
    ∃ pts,
      length pts = length (chunks chunk (rd_data r)) ∧
      log' = log ++ part_events st key uploadID index
                      (chunks chunk (rd_data r)) pts ∧
      parts' = parts ++ (complete_part <$> pts) ∧
      total' = foldl add_size total pts.
Proof.
  induction fuel as [|fuel IH];
    intros r index total parts log total' parts' log' Herr H0 Hlt H; [done|].
  cbn [upload_parts] in H. unfold io_ReadFull in H. rewrite Herr in H.
  destruct (decide (Z.to_nat chunk ≤ length (rd_data r))%nat) as [Hfull|Hshort].
  - assert (rd_data r ≠ []) as Hne by (intros E; rewrite E in Hfull; cbn in Hfull; lia).
    unfold mbind, prog_bind, perform in H; cbn in H.
    destruct (PutObjectPart _ _ _ _ _ _ _ _ _) as [pt|e] eqn:Hput; cbn in H;
      [|done].
    assert (0 < length (rd_data r))%nat by (destruct (rd_data r); [done|cbn; lia]).
    rewrite int64_wrap_small in H by lia.
    apply IH in H as (pts & Hlen & -> & -> & ->); cbn; try done; try lia.
    + exists (pt :: pts). rewrite (chunks_step chunk (rd_data r)) by done.
      cbn. rewrite Hlen, <- !app_assoc. done.
    + rewrite length_drop. lia.
  - cbn in H. destruct (decide (io_EOF = io_EOF)); [|done].
    destruct (rd_data r) as [|b data] eqn:Hdata.
    + rewrite decide_True in H by done. injection H as <- <- <-.
      exists []. by rewrite chunks_nil, !app_nil_r.
    + rewrite decide_False in H by done. rewrite decide_True in H by done.
      unfold mbind, prog_bind, perform in H; cbn in H.
      destruct (PutObjectPart _ _ _ _ _ _ _ _ _) as [pt|e'] eqn:Hput; cbn in H;
        [|done].
      injection H as <- <- <-. exists [pt].
      rewrite (chunks_step chunk (b :: data)) by done.
      rewrite take_ge, drop_ge by (cbn in *; lia). rewrite chunks_nil. done.
Qed.

End Upload.

Lemma chunks_concat c data : 1 ≤ c → concat (chunks c data) = data.
Proof. intros Hc. apply chunks_upto_concat; lia. Qed.

Lemma chunks_sizes c data :
  1 ≤ c →
  Forall (λ ch, 0 < Z.of_nat (length ch) ≤ c) (chunks c data) ∧
  ∀ i ch, chunks c data !! i = Some ch → (S i < length (chunks c data))%nat →
          Z.of_nat (length ch) = c.
Proof.
  intros Hc.
  destruct (chunks_upto_sizes (Z.to_nat c) (length data) data) as [H1 H2];
    [lia|done|].
  split.
  - eapply Forall_impl; [exact H1|]. cbn. lia.
  - intros i ch Hi Hlen. rewrite (H2 i ch Hi Hlen). lia.
Qed.

Lemma finished_part_events st key uploadID : ∀ cs index pts,
  Forall (λ ev, finished ev = false) (part_events st key uploadID index cs pts).
Proof.
  induction cs as [|c cs IH]; intros index [|pt pts]; cbn; constructor;
    [done|apply IH].
Qed.

(** X18. A stream of unknown size that is read without error and stored
    successfully went out as one multipart upload: the upload is started,
    the content is sent as the parts 1, 2, ... in order, each as long as the
    chunk size but a shorter last one, none empty, and together exactly the
    content; the upload is then completed with the parts as the client
    answered them. What is returned is the sum of the sizes in the client's
    answers to the parts (the size in the answer to the completion is not
    used); it is the length of the content when every answer reports the
    size that was sent. *)
Theorem WriteStream_multipart_chunks fuel st key r log total log' :
  io_EOF ≠ io_ErrUnexpectedEOF →
  rd_size r = None → rd_err r = None →
  1 ≤ PutChunkSize (config st) →
  Z.of_nat (length (rd_data r)) < 2 ^ 63 - 1 →
  WriteStream fuel st key r log = (Returns (inl total), log') →
  let cs := chunks (PutChunkSize (config st)) (rd_data r) in
  ∃ uploadID pts info,
    length pts = length cs ∧
    log' = log
      ++ [NewMultipartUpload_call (bucket st) key (PutOpts (config st))
            (inl uploadID)]
      ++ part_events st key uploadID 1 cs pts
      ++ [CompleteMultipartUpload_call (bucket st) key uploadID
            (complete_part <$> pts) (PutOpts (config st)) (inl info)] ∧
    concat cs = rd_data r ∧
    Forall (λ c, 0 < Z.of_nat (length c) ≤ PutChunkSize (config st)) cs ∧
    (∀ i c, cs !! i = Some c → (S i < length cs)%nat →
            Z.of_nat (length c) = PutChunkSize (config st)) ∧
    total = foldl add_size 0 pts ∧
    (Forall2 (λ c pt, ObjectPart.Size pt = Z.of_nat (length c)) cs pts →
     total = Z.of_nat (length (rd_data r))).
Proof.
  intros Hd Hsize Herr Hc Hlen H cs.
  unfold WriteStream in H. rewrite Hsize in H.
  unfold mbind, prog_bind, perform in H; cbn in H.
  destruct (NewMultipartUpload _ _ _ _ _) as [uploadID|e] eqn:Hnew; cbn in H;
    [|done].
  destruct (Z.ltb_spec (PutChunkSize (config st)) 0) as [?|_]; [lia|].
  destruct (upload_parts _ _ _ _ _ _ _ _ _ _) as [[exit| |] log1] eqn:Hup;
    cbn in H; try done.
  destruct exit as [e|total1 parts1]; cbn in H; [done|].
  destruct (CompleteMultipartUpload _ _ _ _ _ _) as [info|e] eqn:Hcomp;
    cbn in H; [|done].
  injection H as <- <-.
  apply upload_parts_end in Hup as (pts & Hl & -> & -> & ->);
    [|done|done|done|lia|lia].
  destruct (chunks_sizes (PutChunkSize (config st)) (rd_data r) Hc) as [Hs1 Hs2].
  exists uploadID, pts, info. fold cs in Hl, Hs1, Hs2 |- *.
  split; [done|]. split; [by rewrite <- !app_assoc|].
  split; [by apply chunks_concat|]. split; [done|]. split; [done|].
  split; [done|]. intros Hall.
  rewrite (add_sizes_honest cs pts 0 Hall); subst cs;
    rewrite ?chunks_concat by done; lia.
Qed.

(** X19. [WriteStream] returns once the fuel exceeds the length of the content,
    given a chunk size of at least 1 when the size is unknown (a reader that
    knows its size needs neither); more fuel changes neither the result nor
    the requests. *)
Theorem WriteStream_returns fuel st key r log :
  (rd_size r = None →
   1 ≤ PutChunkSize (config st) ∧ (length (rd_data r) < fuel)%nat) →
  ∃ res log',
    WriteStream fuel st key r log = (Returns res, log') ∧
    ∀ k, WriteStream (fuel + k) st key r log = (Returns res, log').
Proof.
  intros H. unfold WriteStream.
  destruct (rd_size r) as [size|].
  { unfold mbind, prog_bind, perform; cbn.
    destruct (PutObject _ _ _ _ _ _ _ _ _); cbn; by eauto. }
  destruct H as [Hc Hfuel]; [done|].
  unfold mbind, prog_bind, perform; cbn.
  destruct (NewMultipartUpload _ _ _ _ _) as [uploadID|e]; cbn; [|by eauto].
  destruct (Z.ltb_spec (PutChunkSize (config st)) 0) as [?|_]; [lia|].
  destruct (upload_parts_returns st key uploadID _ Hc fuel r 1 0 []
              (log ++ [NewMultipartUpload_call (bucket st) key
                         (PutOpts (config st)) (inl uploadID)]) Hfuel)
    as (exit & log1 & Hup).
  assert (∀ k, upload_parts (fuel + k) st key uploadID
                 (PutChunkSize (config st)) r 1 0 []
                 (log ++ [NewMultipartUpload_call (bucket st) key
                            (PutOpts (config st)) (inl uploadID)])
               = (Returns exit, log1)) as Hk
    by (intros; by apply upload_parts_more_fuel).
  rewrite Hup. destruct exit as [e|total parts]; cbn.
  - eexists _, _. split; [done|]. intros k. by rewrite Hk.
  - destruct (CompleteMultipartUpload _ _ _ _ _ _) as [info|e] eqn:Hcomp; cbn;
      (eexists _, _; split; [done|]; intros k; rewrite Hk; cbn;
       by rewrite Hcomp).
Qed.

(** X20. Whatever happens in [WriteStream], the bytes it hands over in part
    requests are, in order, a prefix of the content, and it returns without
    an error exactly when the client acknowledged the object: the
    [PutObject] request or the completion of the multipart upload was
    answered without error. A failed part, a failed read, a failed
    completion never give a size. *)
Theorem WriteStream_acknowledged fuel st key r log out log' :
  WriteStream fuel st key r log = (out, log') →
  ∃ new,
    log' = log ++ new ∧
    sent new `prefix_of` rd_data r ∧
    ((∃ n, out = Returns (inl n)) ↔ Exists (λ ev, finished ev = true) new).
Proof.
  intros H. unfold WriteStream in H.
  destruct (rd_size r) as [size|].
  { unfold mbind, prog_bind, perform in H; cbn in H.
    destruct (PutObject _ _ _ _ _ _ _ _ _) as [info|e] eqn:Hput; cbn in H;
      injection H as <- <-; eexists [_]; (split; [done|]);
      (split; [apply prefix_nil|]).
    - split; [intros _; by constructor|by eauto].
    - split; [by intros (? & [= ])|].
      intros Hex. apply Exists_cons in Hex as [?|Hex]; [done|].
      by apply Exists_nil in Hex. }
  unfold mbind, prog_bind, perform in H; cbn in H.
  destruct (NewMultipartUpload _ _ _ _ _) as [uploadID|e] eqn:Hnew; cbn in H.
  2:{ injection H as <- <-. eexists [_]. split; [done|].
      split; [apply prefix_nil|]. split; [by intros (? & [= ])|].
      intros Hex. apply Exists_cons in Hex as [?|Hex]; [done|].
      by apply Exists_nil in Hex. }
  destruct (Z.ltb_spec (PutChunkSize (config st)) 0) as [?|_].
  { injection H as <- <-. eexists [_]. split; [done|].
    split; [apply prefix_nil|]. split; [by intros (? & [= ])|].
    intros Hex. apply Exists_cons in Hex as [?|Hex]; [done|].
    by apply Exists_nil in Hex. }
  destruct (upload_parts _ _ _ _ _ _ _ _ _ _) as [out1 log1] eqn:Hup.
  apply upload_parts_trace in Hup as (new & -> & Hpre & Hfin).
  assert (∀ tail, sent tail = [] →
            sent (NewMultipartUpload_call (bucket st) key (PutOpts (config st))
                    (inl uploadID) :: new ++ tail) `prefix_of` rd_data r) as Hsent.
  { intros tail Htail. unfold sent in *. cbn.
    by rewrite fmap_app, concat_app, Htail, app_nil_r. }
  assert (∀ tail, Forall (λ ev, finished ev = false) tail →
            ¬ Exists (λ ev, finished ev = true)
                (NewMultipartUpload_call (bucket st) key (PutOpts (config st))
                   (inl uploadID) :: new ++ tail)) as Hnone.
  { intros tail Htail Hex. apply Exists_cons in Hex as [?|Hex]; [done|].
    apply Exists_app in Hex as [Hex|Hex];
      apply Exists_exists in Hex as (ev & Hin & Hev);
      [rewrite Forall_forall in Hfin; specialize (Hfin ev Hin)
      |rewrite Forall_forall in Htail; specialize (Htail ev Hin)]; congruence. }
  destruct out1 as [[e|total parts]| |]; cbn in H.
  - injection H as <- <-. eexists (_ :: new ++ []).
    rewrite app_nil_r at 1. rewrite <- app_assoc. split; [done|].
    split; [by apply Hsent|]. split; [by intros (? & [= ])|].
    intros Hex. by apply Hnone in Hex.
  - destruct (CompleteMultipartUpload _ _ _ _ _ _) as [info|e] eqn:Hcomp;
      cbn in H; injection H as <- <-; eexists (_ :: new ++ [_]);
      rewrite <- !app_assoc; (split; [done|]); (split; [by apply Hsent|]).
    + split; [intros _|by eauto]. apply Exists_cons_tl, Exists_app. right.
      by constructor.
    + split; [by intros (? & [= ])|]. intros Hex. apply Hnone in Hex; [done|].
      by repeat constructor.
  - injection H as <- <-. eexists (_ :: new ++ []).
    rewrite app_nil_r at 1. rewrite <- app_assoc. split; [done|].
    split; [by apply Hsent|]. split; [by intros (? & [= ])|].
    intros Hex. by apply Hnone in Hex.
  - injection H as <- <-. eexists (_ :: new ++ []).
    rewrite app_nil_r at 1. rewrite <- app_assoc. split; [done|].
    split; [by apply Hsent|]. split; [by intros (? & [= ])|].
    intros Hex. by apply Hnone in Hex.
Qed.

(** **** WalkKeys *)

(** What a trace of requests says: the entries the client listed, the
    entries handed to [Step], and the list requests themselves. *)
Definition listing (ev : event) : list Entry.t :=
  match ev with
  | ListObjectsV2_call _ _ _ _ _ _ (inl page) =>
      entry_of <$> ListBucketV2Result.Contents page
  | _ => []
  end.

Definition listed (tr : list event) : list Entry.t := concat (listing <$> tr).

Definition stepping (ev : event) : list Entry.t :=
  match ev with
  | Step_call entry _ => [entry]
  | _ => []
  end.

Definition stepped (tr : list event) : list Entry.t := concat (stepping <$> tr).

Definition is_list_request (ev : event) : bool :=
  match ev with
  | ListObjectsV2_call _ _ _ _ _ _ _ => true
  | _ => false
  end.

Definition requests (tr : list event) : list event :=
  List.filter is_list_request tr.

(** The entries that [Filter] lets through. *)
Definition kept (filter : option (string → bool)) (es : list Entry.t)
    : list Entry.t :=
  List.filter (λ e, negb (filtered filter (Entry.Key e))) es.

(** A chain of list requests that starts after [prev] with [token]: each
    one asks for [prefix] with an empty delimiter and the configured list
    size, and continues where the answer before it said; an error ends the
    chain, and when the walk is [complete] the last answer has no
    continuation token. *)
Fixpoint paged (st : S3Storage) (prefix prev token : string) (complete : Prop)
    (reqs : list event) : Prop :=
  match reqs with
  | [] => ¬ complete
  | ev :: reqs =>
      ∃ res,
        ev = ListObjectsV2_call (bucket st) prefix prev token ""
               (ListSize (config st)) res ∧
        match res with
        | inr _ => reqs = [] ∧ ¬ complete
        | inl page =>
            match reqs with
            | [] => complete → ListBucketV2Result.NextContinuationToken page = ""
            | _ :: _ =>
                ListBucketV2Result.NextContinuationToken page ≠ "" ∧
                paged st prefix (ListBucketV2Result.StartAfter page)
                  (ListBucketV2Result.NextContinuationToken page) complete reqs
            end
        end
  end.

Lemma listed_app tr1 tr2 : listed (tr1 ++ tr2) = listed tr1 ++ listed tr2.
Proof. unfold listed. by rewrite fmap_app, concat_app. Qed.

Lemma stepped_app tr1 tr2 : stepped (tr1 ++ tr2) = stepped tr1 ++ stepped tr2.
Proof. unfold stepped. by rewrite fmap_app, concat_app. Qed.

Lemma requests_app tr1 tr2 : requests (tr1 ++ tr2) = requests tr1 ++ requests tr2.
Proof. apply List.filter_app. Qed.

Lemma kept_app filter es1 es2 :
  kept filter (es1 ++ es2) = kept filter es1 ++ kept filter es2.
Proof. apply List.filter_app. Qed.

(** The loop over one page returns; it makes only [Step] calls, for the
    entries that are kept, in order, and all of them unless one fails. *)
Lemma walk_contents_trace filter step : ∀ objs log,
  ∃ err new,
    walk_contents filter step objs log = (Returns err, log ++ new) ∧
    listed new = [] ∧ requests new = [] ∧
    stepped new `prefix_of` kept filter (entry_of <$> objs) ∧
    (err = None → stepped new = kept filter (entry_of <$> objs)).
Proof.
  induction objs as [|obj objs IH]; intros log.
  { exists None, []. rewrite app_nil_r. by repeat split. }
  cbn [walk_contents fmap list_fmap]. unfold kept. cbn [List.filter entry_of Entry.Key].
  fold (kept filter (entry_of <$> objs)).
  destruct (filtered filter (ObjectInfo.Key obj)) eqn:Hf; cbn [negb].
  { apply IH. }
  unfold mbind, prog_bind, perform; cbn.
  destruct (step log _) as [e|] eqn:Hstep.
  - exists (Some e), [Step_call (entry_of obj) (Some e)]. cbn.
    split; [done|]. split; [done|]. split; [done|].
    split; [|done]. apply prefix_cons, prefix_nil.
  - destruct (IH (log ++ [Step_call (entry_of obj) None]))
      as (err & new & Hw & Hl & Hr & Hp & Hn).
    exists err, (Step_call (entry_of obj) None :: new).
    rewrite <- app_assoc in Hw. split; [exact Hw|].
    split; [done|]. split; [done|]. split.
    + unfold stepped. cbn. by apply prefix_cons.
    + intros E. unfold stepped. cbn. f_equal. by apply Hn.
Qed.

Lemma walk_pages_trace st prefix filter step :
  ∀ fuel prev token log out log',
    walk_pages fuel st prefix filter step prev token log = (out, log') →
    ∃ new,
      log' = log ++ new ∧
      stepped new `prefix_of` kept filter (listed new) ∧
      (out = Returns None → stepped new = kept filter (listed new)) ∧
      paged st prefix prev token (out = Returns None) (requests new).
Proof.
  induction fuel as [|fuel IH]; intros prev token log out log' H.
  { injection H as <- <-. exists []. rewrite app_nil_r. by repeat split. }
  cbn [walk_pages] in H. unfold mbind, prog_bind, perform in H; cbn in H.
  destruct (ListObjectsV2 _ _ _ _ _ _ _ _) as [page|e] eqn:Hlist; cbn in H.
  2:{ injection H as <- <-. eexists [_]. split; [done|].
      split; [done|]. split; [done|]. cbn. eexists. split; [done|]. cbn. by try split. }
  destruct (walk_contents_trace filter step (ListBucketV2Result.Contents page)
              (log ++ [ListObjectsV2_call (bucket st) prefix prev token ""
                         (ListSize (config st)) (inl page)]))
    as (err & new1 & Hw & Hl1 & Hr1 & Hp1 & Hn1).
  rewrite Hw in H.
  assert (listed (ListObjectsV2_call (bucket st) prefix prev token ""
                    (ListSize (config st)) (inl page) :: new1)
          = entry_of <$> ListBucketV2Result.Contents page) as Hl.
  { change (?x :: new1) with ([x] ++ new1). rewrite listed_app, Hl1.
    unfold listed. cbn. by rewrite !app_nil_r. }
  assert (stepped (ListObjectsV2_call (bucket st) prefix prev token ""
                    (ListSize (config st)) (inl page) :: new1)
          = stepped new1) as Hs by done.
  assert (requests (ListObjectsV2_call (bucket st) prefix prev token ""
                    (ListSize (config st)) (inl page) :: new1)
          = [ListObjectsV2_call (bucket st) prefix prev token ""
               (ListSize (config st)) (inl page)]) as Hr.
  { unfold requests in *. cbn. by rewrite Hr1. }
  destruct err as [e|].
  { injection H as <- <-. eexists (_ :: new1). rewrite <- app_assoc.
    split; [done|]. rewrite Hl, Hs, Hr. split; [done|]. split; [done|].
    cbn. eexists. split; [done|]. cbn. by try split. }
  specialize (Hn1 eq_refl).
  destruct (String.eqb_spec (ListBucketV2Result.NextContinuationToken page) "")
    as [Htok|Htok].
  { injection H as <- <-. eexists (_ :: new1). rewrite <- app_assoc.
    split; [done|]. rewrite Hl, Hs, Hr. split; [by rewrite Hn1|].
    split; [done|]. cbn. eexists. split; [done|]. cbn. by try split. }
  apply IH in H as (new2 & -> & Hp2 & Hn2 & Hpg).
  eexists (_ :: new1 ++ new2). rewrite <- !app_assoc. split; [done|].
  change (?x :: new1 ++ new2) with ((x :: new1) ++ new2).
  rewrite stepped_app, listed_app, requests_app, kept_app, Hl, Hs, Hr, Hn1.
  split; [by apply prefix_app|]. split; [by intros ->%Hn2|].
  cbn. eexists. split; [done|]. cbn.
  destruct (requests new2) as [|req reqs]; [by intros ?%Hpg|done].
Qed.

Lemma walk_pages_returns st prefix filter step (remaining : string → nat) :
  (∀ log prev token page,
     ListObjectsV2 (client st) log (bucket st) prefix prev token ""
       (ListSize (config st)) = inl page →
     ListBucketV2Result.NextContinuationToken page ≠ "" →
     (remaining (ListBucketV2Result.NextContinuationToken page)
      < remaining token)%nat) →
  ∀ fuel prev token log,
    (remaining token < fuel)%nat →
    ∃ res log',
      walk_pages fuel st prefix filter step prev token log = (Returns res, log').
Proof.
  intros Hdecr.
  induction fuel as [|fuel IH]; intros prev token log Hfuel; [lia|].
  cbn [walk_pages]. unfold mbind, prog_bind, perform; cbn.
  destruct (ListObjectsV2 _ _ _ _ _ _ _ _) as [page|e] eqn:Hlist; cbn;
    [|by eauto].
  destruct (walk_contents_trace filter step (ListBucketV2Result.Contents page)
              (log ++ [ListObjectsV2_call (bucket st) prefix prev token ""
                         (ListSize (config st)) (inl page)]))
    as (err & new1 & Hw & _).
  rewrite Hw. destruct err as [e|]; [by eauto|].
  destruct (String.eqb_spec (ListBucketV2Result.NextContinuationToken page) "")
    as [Htok|Htok]; [by eauto|].
  apply IH. specialize (Hdecr _ _ _ _ Hlist Htok). lia.
Qed.

(** X21. [WalkKeys] hands to [Step] the entries that the client listed and that
    [Filter] lets through, in the order listed, each once, with the key
    and the size listed: all of them when it returns nil, and those up to
    the one where it stopped otherwise. Without a [Step] function it
    panics before any request. *)
Theorem WalkKeys_steps_through_listing fuel st opts log out log' :
  WalkKeys fuel st opts log = (out, log') →
  ∃ new,
    log' = log ++ new ∧
    stepped new `prefix_of` kept (Filter opts) (listed new) ∧
    (out = Returns None → stepped new = kept (Filter opts) (listed new)) ∧
    (Step opts = None → new = [] ∧ out = Panics "nil step fn").
Proof.
  intros H. unfold WalkKeys in H. destruct (Step opts) as [step|].
  - apply walk_pages_trace in H as (new & -> & Hp & Hn & _).
    exists new. by repeat split.
  - injection H as <- <-. exists []. rewrite app_nil_r. by repeat split.
Qed.

(** X22. The list requests of [WalkKeys] form one chain: the first starts at
    the beginning with no token, each further one carries the continuation
    token and the start-after mark of the answer before it, all ask for
    [opts.Prefix] with an empty delimiter and the configured list size;
    nothing is requested after an error, and a walk that returns nil ended
    on an answer without continuation token. *)
Theorem WalkKeys_pagination fuel st opts log out log' :
  WalkKeys fuel st opts log = (out, log') →
  ∃ new,
    log' = log ++ new ∧
    paged st (Prefix opts) "" "" (out = Returns None) (requests new).
Proof.
  intros H. unfold WalkKeys in H. destruct (Step opts) as [step|].
  - apply walk_pages_trace in H as (new & -> & _ & _ & Hpg). by exists new.
  - injection H as <- <-. exists []. rewrite app_nil_r. by split.
Qed.

(** X23. [WalkKeys] returns when the client's continuation tokens run out:
    given a measure on tokens that every answer with a further token
    decreases, fuel above the measure of the empty token is enough. *)
Theorem WalkKeys_returns (remaining : string → nat) fuel st opts log :
  Step opts ≠ None →
  (∀ log prev token page,
     ListObjectsV2 (client st) log (bucket st) (Prefix opts) prev token ""
       (ListSize (config st)) = inl page →
     ListBucketV2Result.NextContinuationToken page ≠ "" →
     (remaining (ListBucketV2Result.NextContinuationToken page)
      < remaining token)%nat) →
  (remaining "" < fuel)%nat →
  ∃ res log', WalkKeys fuel st opts log = (Returns res, log').
Proof.
  intros Hstep Hdecr Hfuel. unfold WalkKeys.
  destruct (Step opts) as [step|]; [|done].
  by apply (walk_pages_returns st (Prefix opts) (Filter opts) step remaining).
Qed.

(** **** Errors of the client *)

(** X16. How an error of the client that is neither a not-found nor a conflict
    error is reported: unchanged when [isObjectNameError] holds for it, and
    wrapped as [storage.ErrInvalidKey] when it does not. [ReadStream] and
    the start of a multipart upload pass the outcome through
    [transformS3Error]; [Stat], [Remove] and the [PutObject] of a sized
    reader do not. *)
Theorem client_errors_reported st key log e :
  isNotFoundError e = false → isConflictError e = false →
  let reported :=
    if isObjectNameError e then e
    else internal_WrapErr e storage_ErrInvalidKey in
  let stat_call := StatObject_call (bucket st) key (StatOpts (config st)) in
  (GetObject (client st) log (bucket st) key (GetOpts (config st)) = inr e →
   (ReadStream st key log).1 = Returns (inr (transformS3Error reported))) ∧
  (StatObject (client st) log (bucket st) key (StatOpts (config st)) = inr e →
   (Stat st key log).1 = Returns (inr reported) ∧
   (Remove st key log).1 = Returns (Some reported)) ∧
  (∀ info,
     StatObject (client st) log (bucket st) key (StatOpts (config st))
       = inl info →
     RemoveObject (client st) (log ++ [stat_call (inl info)]) (bucket st) key
       (RemoveOpts (config st)) = Some e →
     (Remove st key log).1 = Returns (Some reported)) ∧
  (∀ fuel r size,
     rd_size r = Some size →
     PutObject (client st) log (bucket st) key r size "" "" (PutOpts (config st))
       = inr e →
     (WriteStream fuel st key r log).1 = Returns (inr reported)) ∧
  (∀ fuel r,
     rd_size r = None →
     NewMultipartUpload (client st) log (bucket st) key (PutOpts (config st))
       = inr e →
     (WriteStream fuel st key r log).1
       = Returns (inr (transformS3Error reported))).
Proof.
  intros Hnf Hcf reported stat_call. subst reported stat_call.
  unfold ReadStream, Stat, Remove, WriteStream, mbind, prog_bind, perform; cbn.
  repeat split.
  - intros ->. cbn. rewrite Hnf. by destruct (isObjectNameError e).
  - rewrite H. cbn. rewrite Hnf. by destruct (isObjectNameError e).
  - rewrite H. cbn. rewrite Hnf. by destruct (isObjectNameError e).
  - intros info -> Hrm. cbn. rewrite Hrm. cbn. rewrite Hnf.
    by destruct (isObjectNameError e).
  - intros fuel r size -> ->. cbn. rewrite Hcf.
    by destruct (isObjectNameError e).
  - intros fuel r -> ->. cbn. rewrite Hcf. by destruct (isObjectNameError e).
Qed.

End Storage.

(** *** A scripted client *)

(** A client that answers from a script, a storage on it with a chunk size
    of 2 bytes, and a stream of 5 bytes of unknown size. *)
Definition example_isNotFoundError (e : string) : bool :=
  String.eqb e "NoSuchKey".
Definition example_isObjectNameError (e : string) : bool :=
  String.prefix "Object name" e.
Definition example_isConflictError (e : string) : bool :=
  String.eqb e "PreconditionFailed".
Definition example_WrapErr (inner outer : string) : string :=
  String.append outer (String.append ": " inner).

Definition example_page (token : string) : ListBucketV2Result.t :=
  if String.eqb token ""
  then {| ListBucketV2Result.Contents :=
            [ObjectInfo.mk "a" 1; ObjectInfo.mk "tmp/b" 2; ObjectInfo.mk "c" 3];
          ListBucketV2Result.NextContinuationToken := "page-2";
          ListBucketV2Result.StartAfter := "" |}
  else {| ListBucketV2Result.Contents := [ObjectInfo.mk "d" 4];
          ListBucketV2Result.NextContinuationToken := "";
          ListBucketV2Result.StartAfter := "" |}.

Definition example_client : @Core unit unit unit unit unit string :=
  {| BucketExists := λ _ _, inl true;
     GetObject := λ _ _ _ _,
       inl {| rc_data := [x68; x69]; rc_err := None; rc_close := None |};
     PutObject := λ _ _ key _ size _ _ _,
       if String.eqb key "bad key"
       then inr "Object name contains unsupported characters."
       else inl (UploadInfo.mk size);
     NewMultipartUpload := λ _ _ _ _, inl "upload-1";
     PutObjectPart := λ _ _ _ _ partID _ size _,
       inl (ObjectPart.mk partID "etag" size "" "" "" "");
     CompleteMultipartUpload := λ _ _ _ _ _ _, inl (UploadInfo.mk 0);
     StatObject := λ _ _ key _,
       if String.eqb key "a" then inl (ObjectInfo.mk "a" 1)
       else if String.eqb key "bad key"
            then inr "Object name contains unsupported characters."
            else inr "NoSuchKey";
     RemoveObject := λ _ _ _ _, None;
     ListObjectsV2 := λ _ _ _ _ token _ _, inl (example_page token) |}.

Definition example_config : Config unit unit unit unit unit unit :=
  {| CoreOpts := (); GetOpts := (); PutOpts := (); PutChunkSize := 2;
     PutChunkOpts := (); StatOpts := (); RemoveOpts := (); ListSize := 3 |}.

Definition example_storage : @S3Storage unit unit unit unit unit unit string :=
  {| client := example_client; bucket := "media"; config := example_config |}.

Definition example_stream : @reader string :=
  {| rd_data := [x01; x02; x03; x04; x05]; rd_err := None; rd_size := None |}.

Definition example_opts : @WalkKeysOpts unit unit unit unit unit string :=
  {| Prefix := ""; Filter := Some (String.prefix "tmp/");
     Step := Some (λ _ _, None) |}.

Definition example_WriteStream (fuel : nat) (key : string) (r : reader) :=
  WriteStream "EOF" "unexpected EOF" "invalid key" "already exists"
    example_isObjectNameError example_isConflictError id example_WrapErr
    fuel example_storage key r.




Definition example_walk := WalkKeys 3 example_storage example_opts [].


Lemma WriteStream_sized_is_one_put_witness :
  rd_size (bytes_NewReader (error := string) [x01; x02; x03]) = Some 3 ∧
  ∃ res,
    example_WriteStream 0 "k" (bytes_NewReader [x01; x02; x03]) []
      = (Returns res,
         [PutObject_call "media" "k" (bytes_NewReader [x01; x02; x03]) 3 "" ""
            () (inl (UploadInfo.mk 3))]) ∧
    res = inl 3.
Proof.
  split; [reflexivity|].
  pose proof (WriteStream_sized_is_one_put "EOF" "unexpected EOF" "invalid key"
                "already exists" example_isObjectNameError
                example_isConflictError id example_WrapErr 0%nat example_storage
                "k" (bytes_NewReader [x01; x02; x03]) 3 [] eq_refl) as H.
  cbn zeta in H. destruct H as (res & Hrun & Hok & _).
  exists res. split; [exact Hrun|]. by apply (Hok (UploadInfo.mk 3)).
Defined.

Lemma WriteStream_multipart_chunks_witness :
  (example_WriteStream 6 "k" example_stream []).1 = Returns (inl 5) ∧
  ∃ uploadID pts info,
    length pts = 3%nat ∧
    (example_WriteStream 6 "k" example_stream []).2
      = [NewMultipartUpload_call "media" "k" () (inl uploadID)]
        ++ part_events example_storage "k" uploadID 1
             [[x01; x02]; [x03; x04]; [x05]] pts
        ++ [CompleteMultipartUpload_call "media" "k" uploadID
              (complete_part <$> pts) () (inl info)] ∧
    5 = foldl add_size 0 pts.
Proof.
  split; [reflexivity|].
  pose proof (WriteStream_multipart_chunks "EOF" "unexpected EOF" "invalid key"
                "already exists" example_isObjectNameError
                example_isConflictError id example_WrapErr 6%nat example_storage
                "k" example_stream [] 5
                (example_WriteStream 6 "k" example_stream []).2) as H.
  cbn zeta in H.
  destruct H as (uploadID & pts & info & Hlen & Hlog & _ & _ & _ & Htot & _);
    [discriminate|reflexivity|reflexivity|cbn; lia|cbn; lia|reflexivity|].
  by exists uploadID, pts, info.
Defined.

Lemma WriteStream_returns_witness :
  ∃ res log',
    example_WriteStream 6 "k" example_stream [] = (Returns res, log') ∧
    ∀ k, example_WriteStream (6 + k) "k" example_stream [] = (Returns res, log').
Proof.
  apply (WriteStream_returns "EOF" "unexpected EOF" "invalid key"
           "already exists" example_isObjectNameError example_isConflictError
           id example_WrapErr 6%nat example_storage "k" example_stream []).
  intros _. cbn. lia.
Defined.

Lemma WriteStream_acknowledged_witness :
  ∃ new,
    (example_WriteStream 6 "k" example_stream []).2 = [] ++ new ∧
    sent new `prefix_of` rd_data example_stream ∧
    ((∃ n, (example_WriteStream 6 "k" example_stream []).1 = Returns (inl n)) ↔
     Exists (λ ev, finished ev = true) new).
Proof.
  apply (WriteStream_acknowledged "EOF" "unexpected EOF" "invalid key"
           "already exists" example_isObjectNameError example_isConflictError
           id example_WrapErr 6%nat example_storage "k" example_stream []).
  reflexivity.
Defined.

Lemma WalkKeys_steps_through_listing_witness :
  ∃ new,
    example_walk.2 = [] ++ new ∧
    stepped new `prefix_of` kept (Filter example_opts) (listed new) ∧
    (example_walk.1 = Returns None →
     stepped new = kept (Filter example_opts) (listed new)) ∧
    (Step example_opts = None → new = [] ∧ example_walk.1 = Panics "nil step fn").
Proof.
  apply (WalkKeys_steps_through_listing 3 example_storage example_opts []).
  reflexivity.
Defined.

Lemma WalkKeys_pagination_witness :
  ∃ new,
    example_walk.2 = [] ++ new ∧
    paged example_storage "" "" "" (example_walk.1 = Returns None) (requests new).
Proof.
  apply (WalkKeys_pagination 3 example_storage example_opts []). reflexivity.
Defined.

Lemma WalkKeys_returns_witness :
  ∃ res log', WalkKeys 3 example_storage example_opts [] = (Returns res, log').
Proof.
  apply (WalkKeys_returns (λ token, if String.eqb token "" then 1 else 0)%nat).
  - done.
  - intros log prev token page [= <-] Hnext. unfold example_page in *.
    destruct (String.eqb token ""); cbn in *; [lia|done].
  - cbn. lia.
Defined.

Lemma client_errors_reported_witness :
  (Stat "invalid key" example_isNotFoundError example_isObjectNameError
        example_WrapErr example_storage "bad key" []).1
    = Returns (inr "Object name contains unsupported characters.") ∧
  (Remove "not found" "invalid key" example_isNotFoundError
          example_isObjectNameError example_WrapErr example_storage
          "bad key" []).1
    = Returns (Some "Object name contains unsupported characters.").
Proof.
  pose proof (client_errors_reported "EOF" "unexpected EOF" "not found"
                "invalid key" "already exists" example_isNotFoundError
                example_isObjectNameError example_isConflictError id
                example_WrapErr example_storage "bad key" []
                "Object name contains unsupported characters."
                eq_refl eq_refl) as H.
  cbn zeta in H. destruct H as (_ & H & _). apply H. reflexivity.
Defined.

End S3.

(* ===================================================================== *)
(** ** go-structr: struct field lookup and extraction                     *)
(* ===================================================================== *)

Module Structr.

(** *** Machine integers *)

(** [uint] and [uintptr] are 64 bits wide (a 64-bit platform). *)
Definition word_modulus : Z := 2 ^ 64.
Definition wrap (z : Z) : Z := z mod word_modulus.

(** *** reflect.Type

    A type as [reflect] presents it to [find_field]: its kind, the element
    type of a pointer, and the fields of a struct with their names, types
    and byte offsets ([reflect.StructField]). Kinds other than pointer and
    struct only matter as "neither of the two": bool, int, uint and string
    are modelled with their values, every other kind (floats, slices, maps,
    ...) by its number and an uninterpreted word. A struct has the fields
    it declares: promotion of the fields of an embedded struct, which
    [FieldByName] of [reflect] also performs, is not modelled. Types are
    finite trees; [find_field] looks at a type only as deep as the path
    goes, so a recursive type is represented by an unfolding of it. *)
Inductive basic_kind := Bool | Int | Uint | String | Other (kind : N).

Inductive rtype : Type :=
| Basic (k : basic_kind)
| PointerTo (elem : rtype)
| StructOf (fields : struct_fields)
with struct_fields : Type :=
| no_fields
| field (Name : string) (Type_ : rtype) (Offset : Z) (rest : struct_fields).

Scheme rtype_fields_ind := Induction for rtype Sort Prop
  with fields_rtype_ind := Induction for struct_fields Sort Prop.
Combined Scheme rtype_mutind from rtype_fields_ind, fields_rtype_ind.

Inductive Kind := KBasic (k : basic_kind) | Pointer | Struct.

Definition Kind_of (t : rtype) : Kind :=
  match t with
  | Basic k => KBasic k
  | PointerTo _ => Pointer
  | StructOf _ => Struct
  end.

(** [t.FieldByName(name)]: the type and offset of the field called [name]. *)
Fixpoint FieldByName (fs : struct_fields) (name : string) : option (rtype * Z) :=
  match fs with
  | no_fields => None
  | field n ft off rest =>
      if String.eqb n name then Some (ft, off) else FieldByName rest name
  end.

(** *** The heap

    Addresses are integers and [nil] is 0. The heap maps an address to the
    scalar or pointer stored there; a struct at address [p] keeps each field
    at [p] plus the field's offset. *)
Inductive cell :=
| CBool (b : bool)
| CInt (z : Z)
| CUint (z : Z)
| CString (s : string)
| COther (kind : N) (data : Z)
| CPointer (a : Z).

Abbreviation heap := (gmap Z cell).

#[local] Set Warnings "-register-all".

(** A Go value, as an interface holds it. *)
Inductive value :=
| VBool (b : bool)
| VInt (z : Z)
| VUint (z : Z)
| VString (s : string)
| VOther (kind : N) (data : Z)
| VPointer (a : Z)
| VStruct (fields : list value).

(** [any]: the nil interface, or a dynamic type with a value of it. *)
Inductive any := nil_any | eface (t : rtype) (v : value).

Definition load_basic (k : basic_kind) (c : cell) : option value :=
  match k, c with
  | Bool, CBool b => Some (VBool b)
  | Int, CInt z => Some (VInt z)
  | Uint, CUint z => Some (VUint z)
  | String, CString s => Some (VString s)
  | Other k, COther k' d => if (k =? k')%N then Some (VOther k d) else None
  | _, _ => None
  end.

Definition load_pointer (m : heap) (p : Z) : option Z :=
  match m !! p with
  | Some (CPointer a) => Some a
  | _ => None
  end.

(** The value of type [t] stored at address [p], if the heap holds one. *)
Fixpoint read_value (m : heap) (t : rtype) (p : Z) : option value :=
  match t with
  | Basic k => m !! p ≫= load_basic k
  | PointerTo _ => VPointer <$> load_pointer m p
  | StructOf fs => VStruct <$> read_fields m fs p
  end
with read_fields (m : heap) (fs : struct_fields) (p : Z) : option (list value) :=
  match fs with
  | no_fields => Some []
  | field _ ft off rest =>
      v ← read_value m ft (p + off);
      vs ← read_fields m rest p;
      Some (v :: vs)
  end.

Definition zero_cell (k : basic_kind) : cell :=
  match k with
  | Bool => CBool false
  | Int => CInt 0
  | Uint => CUint 0
  | String => CString ""
  | Other k => COther k 0
  end.

Definition zero_basic (k : basic_kind) : value :=
  match k with
  | Bool => VBool false
  | Int => VInt 0
  | Uint => VUint 0
  | String => VString ""
  | Other k => VOther k 0
  end.

(** The zero value of a type. *)
Fixpoint zero_value (t : rtype) : value :=
  match t with
  | Basic k => zero_basic k
  | PointerTo _ => VPointer 0
  | StructOf fs => VStruct (zero_fields fs)
  end
with zero_fields (fs : struct_fields) : list value :=
  match fs with
  | no_fields => []
  | field _ ft _ rest => zero_value ft :: zero_fields rest
  end.

(** The cells of a zeroed object of type [t], by offset from its start. *)
Fixpoint zero_cells (t : rtype) : list (Z * cell) :=
  match t with
  | Basic k => [(0, zero_cell k)]
  | PointerTo _ => [(0, CPointer 0)]
  | StructOf fs => zero_cells_fields fs
  end
with zero_cells_fields (fs : struct_fields) : list (Z * cell) :=
  match fs with
  | no_fields => []
  | field _ ft off rest =>
      (prod_map (Z.add off) id <$> zero_cells ft) ++ zero_cells_fields rest
  end.

(** The highest address in use. *)
Definition heap_top (m : heap) : Z := map_fold (λ k _ acc, Z.max k acc) 0 m.

(** *** Outcomes of a Go call: a normal return, a panic with its value, or a
    memory fault (an access outside every live object). *)
Inductive panic_value :=
| field_is_not_exported (name : string)
| field_is_not_struct (t : rtype) (name : string)
| unknown_field (name : string)
| no_mangler_for_type (t : rtype).

Inductive outcome (A : Type) :=
| Ok (a : A)
| Panic (p : panic_value)
| Fault.
Arguments Ok {A} a.
Arguments Panic {A} p.
Arguments Fault {A}.

#[global] Instance outcome_ret : MRet outcome := λ A a, Ok a.
#[global] Instance outcome_bind : MBind outcome := λ A B k x,
  match x with
  | Ok a => k a
  | Panic p => Panic p
  | Fault => Fault
  end.

Definition or_fault {A} (o : option A) : outcome A :=
  match o with Some a => Ok a | None => Fault end.

(** *** reflect2

    [type2.UnsafeNew()] allocates a zeroed object and returns its address:
    here above the highest cell in use (no scalar is wider than 16 bytes).
    [type2.UnsafeIndirect(ptr)] packs the value of the type stored at [ptr]
    into an interface; an address that holds no such value is a fault. *)
Definition UnsafeNew (m : heap) (t : rtype) : Z * heap :=
  let p := heap_top m + 16 in
  (p, list_to_map (prod_map (Z.add p) id <$> zero_cells t) ∪ m).

Definition UnsafeIndirect (m : heap) (t : rtype) (ptr : Z) : outcome any :=
  or_fault (eface t <$> read_value m t ptr).

Arguments UnsafeNew : simpl never.

(** *** unicode/utf8 and unicode (Go standard library)

    [utf8.DecodeRuneInString] returns the first rune of a string and its
    width in bytes; an empty string or an invalid encoding gives
    [RuneError]. *)
Definition RuneError : Z := 0xFFFD.

Definition byte_of (c : ascii) : Z := Z.of_N (N_of_ascii c).

(** The table [first]: information about the first byte of an encoding. The
    low three bits are the length, the high four index [acceptRanges];
    [0xF0] marks ASCII and [0xF1] an invalid first byte. *)
Definition first (b : Z) : Z :=
  if b <? 0x80 then 0xF0
  else if b <? 0xC2 then 0xF1
  else if b <? 0xE0 then 0x02
  else if b =? 0xE0 then 0x13
  else if b <? 0xED then 0x03
  else if b =? 0xED then 0x23
  else if b <? 0xF0 then 0x03
  else if b =? 0xF0 then 0x34
  else if b <? 0xF4 then 0x04
  else if b =? 0xF4 then 0x44
  else 0xF1.

Definition acceptRanges (i : Z) : Z * Z :=
  match i with
  | 0 => (0x80, 0xBF)
  | 1 => (0xA0, 0xBF)
  | 2 => (0x80, 0x9F)
  | 3 => (0x90, 0xBF)
  | 4 => (0x80, 0x8F)
  | _ => (0, 0)
  end.

Definition continuation (b : Z) : bool := (0x80 <=? b) && (b <=? 0xBF).

Definition DecodeRuneInString (s : string) : Z * Z :=
  match list_ascii_of_string s with
  | [] => (RuneError, 0)
  | c0 :: tail =>
      let s0 := byte_of c0 in
      let x := first s0 in
      if 0xF0 <=? x then ((if x =? 0xF0 then s0 else RuneError), 1)
      else
        let sz := Z.land x 7 in
        let '(lo, hi) := acceptRanges (Z.shiftr x 4) in
        match tail with
        | [] => (RuneError, 1)
        | c1 :: tail =>
            let s1 := byte_of c1 in
            if (s1 <? lo) || (hi <? s1) then (RuneError, 1)
            else if sz <=? 2
            then (Z.lor (Z.shiftl (Z.land s0 0x1F) 6) (Z.land s1 0x3F), 2)
            else match tail with
            | [] => (RuneError, 1)
            | c2 :: tail =>
                let s2 := byte_of c2 in
                if negb (continuation s2) then (RuneError, 1)
                else if sz <=? 3
                then (Z.lor (Z.lor (Z.shiftl (Z.land s0 0x0F) 12)
                                   (Z.shiftl (Z.land s1 0x3F) 6))
                            (Z.land s2 0x3F), 3)
                else match tail with
                | [] => (RuneError, 1)
                | c3 :: _ =>
                    let s3 := byte_of c3 in
                    if negb (continuation s3) then (RuneError, 1)
                    else (Z.lor (Z.lor (Z.lor (Z.shiftl (Z.land s0 0x07) 18)
                                              (Z.shiftl (Z.land s1 0x3F) 12))
                                       (Z.shiftl (Z.land s2 0x3F) 6))
                                (Z.land s3 0x3F), 4)
                end
            end
        end
  end.

(** The upper case letters of Latin-1: A-Z, U+00C0-U+00D6, U+00D8-U+00DE. *)
Definition latin1_upper (r : Z) : bool :=
  ((0x41 <=? r) && (r <=? 0x5A)) || ((0xC0 <=? r) && (r <=? 0xD6))
  || ((0xD8 <=? r) && (r <=? 0xDE)).

(** *** go-structr/runtime.go *)

(** [next_offset]: the number of dereferences, then the offset from the
    address they lead to. [derefs] is a uint, [offset] a uintptr. *)
Record next_offset := mk_next_offset { derefs : Z; offset : Z }.

(** [mangler.Mangler]: appends the encoding of a value to a buffer. *)
Definition Mangler : Type := list Byte.byte → any → list Byte.byte.

(** [struct_field]. [zero] is an address in the heap. *)
Record struct_field := mk_struct_field {
  type2 : rtype;
  offsets : list next_offset;
  mangle : Mangler;
  zero : Z;
  zerostr : string
}.

(** [deref] dereferences [p] [n] times, or until nil. The loop counts [n]
    down to zero, one iteration for each unit. *)
Fixpoint deref_loop (m : heap) (p : Z) (n : nat) : outcome Z :=
  match n with
  | O => Ok p
  | S n =>
      if p =? 0 then Ok 0
      else p ← or_fault (load_pointer m p); deref_loop m p n
  end.

Definition deref (m : heap) (p : Z) (n : Z) : outcome Z :=
  deref_loop m p (Z.to_nat n).

(** The loop [for t.Kind() == reflect.Pointer] of [find_field]. *)
Fixpoint deref_type (t : rtype) (derefs : Z) : rtype * Z :=
  match t with
  | PointerTo elem => deref_type elem (wrap (derefs + 1))
  | _ => (t, derefs)
  end.

(** The inner loop of [extract_fields]: follow the offsets from [fptr]; a
    nil after dereferencing replaces [fptr] by the zero value's address and
    leaves the loop. *)
Fixpoint follow_offsets (m : heap) (fptr : Z) (zero : Z)
    (offsets : list next_offset) : outcome Z :=
  match offsets with
  | [] => Ok fptr
  | off :: offsets =>
      fptr ← deref m fptr (derefs off);
      if fptr =? 0 then Ok zero
      else follow_offsets m (wrap (fptr + offset off)) zero offsets
  end.

(** The body of the outer loop, for one field: the value packed into
    [ifaces[i]]. *)
Definition extract_field (m : heap) (ptr : Z) (fld : struct_field) : outcome any :=
  fptr ← follow_offsets m ptr (zero fld) (offsets fld);
  UnsafeIndirect m (type2 fld) fptr.

(** The outer loop: [ifaces[i]] is assigned for [i] = 0, 1, ... *)
Fixpoint extract_loop (m : heap) (ptr : Z) (i : nat)
    (fields : list struct_field) (ifaces : list any) : outcome (list any) :=
  match fields with
  | [] => Ok ifaces
  | fld :: fields =>
      v ← extract_field m ptr fld;
      extract_loop m ptr (S i) fields (<[i := v]> ifaces)
  end.

Definition extract_fields (m : heap) (ptr : Z) (fields : list struct_field)
    : outcome (list any) :=
  extract_loop m ptr 0 fields (replicate (length fields) nil_any).

(** *** Specification-side notions *)

(** The number of pointer layers around a type, and the type inside them. *)
Fixpoint pointer_layers (t : rtype) : nat :=
  match t with
  | PointerTo elem => S (pointer_layers elem)
  | _ => O
  end.

Fixpoint pointee (t : rtype) : rtype :=
  match t with
  | PointerTo elem => pointee elem
  | _ => t
  end.

(** What [reflect] guarantees of the types it hands out: field offsets are
    uintptr values, the scalars and pointers of a struct lie at distinct
    offsets (none of them has size zero), and a pointer type has fewer than
    2^64 layers. *)
Fixpoint reflect_ok (t : rtype) : bool :=
  match t with
  | Basic _ => true
  | PointerTo elem =>
      reflect_ok elem && (Z.of_nat (S (pointer_layers elem)) <? word_modulus)
  | StructOf fs =>
      fields_ok fs && bool_decide (NoDup (zero_cells_fields fs).*1)
  end
with fields_ok (fs : struct_fields) : bool :=
  match fs with
  | no_fields => true
  | field _ ft off rest =>
      (0 <=? off) && (off <? word_modulus) && reflect_ok ft && fields_ok rest
  end.

Definition address (a : Z) : bool := (0 <? a) && (a <? word_modulus).

(** The heap holds a well-formed instance of [t] at [p]: every scalar is of
    its field's kind, every pointer is nil or the address of a well-formed
    instance of its element type, and every field lies inside the address
    space. *)
Fixpoint valid_at (m : heap) (t : rtype) (p : Z) : bool :=
  match t with
  | Basic k =>
      match m !! p with
      | Some c => bool_decide (is_Some (load_basic k c))
      | None => false
      end
  | PointerTo elem =>
      match load_pointer m p with
      | Some a => (a =? 0) || (address a && valid_at m elem a)
      | None => false
      end
  | StructOf fs => valid_fields m fs p
  end
with valid_fields (m : heap) (fs : struct_fields) (p : Z) : bool :=
  match fs with
  | no_fields => true
  | field _ ft off rest =>
      (p + off <? word_modulus) && valid_at m ft (p + off) && valid_fields m rest p
  end.

(** Some navigation step, started at [p], dereferences to nil: the steps
    before it found non-nil addresses. *)
Inductive reaches_nil (m : heap) : Z → list next_offset → Prop :=
| nil_here p off rest :
    deref m p (derefs off) = Ok 0 →
    reaches_nil m p (off :: rest)
| nil_later p q off rest :
    deref m p (derefs off) = Ok q → q ≠ 0 →
    reaches_nil m (wrap (q + offset off)) rest →
    reaches_nil m p (off :: rest).

(** Every navigation step, started at [p], dereferences to a non-nil
    address, and the last one leads to [r]. *)
Inductive arrives (m : heap) : Z → list next_offset → Z → Prop :=
| arrives_done p : arrives m p [] p
| arrives_step p q off rest r :
    deref m p (derefs off) = Ok q → q ≠ 0 →
    arrives m (wrap (q + offset off)) rest r →
    arrives m p (off :: rest) r.

Section Runtime.

(** [unicode.Upper] beyond Latin-1 is a range table of the Go standard
    library, and [mangler.Get] belongs to go-mangler: both are parameters.
    [mangler.Get] panics for a type it has no mangler for. *)
Variable unicode_Upper : Z → bool.
Variable mangler_Get : rtype → option Mangler.

Definition IsUpper (r : Z) : bool :=
  if r <=? 0xFF then latin1_upper r else unicode_Upper r.

Definition is_exported (name : string) : bool :=
  let '(r, _) := DecodeRuneInString name in IsUpper r.

(** The loop [for len(names) > 0] of [find_field]: the type the names lead
    to and the offsets collected on the way. *)
Fixpoint find_field_loop (t : rtype) (names : list string)
    (offsets : list next_offset) : outcome (rtype * list next_offset) :=
  match names with
  | [] => Ok (t, offsets)
  | name :: names =>
      if negb (is_exported name) then Panic (field_is_not_exported name)
      else
        let '(t, derefs) := deref_type t 0 in
        match t with
        | StructOf fs =>
            match FieldByName fs name with
            | None => Panic (unknown_field name)
            | Some (ft, off) =>
                find_field_loop ft names
                  (offsets ++ [{| derefs := derefs; offset := off |}])
            end
        | _ => Panic (field_is_not_struct t name)
        end
  end.

(** [find_field], in the heap [m]: the field descriptor and the heap that
    now holds its zero value. *)
Definition find_field (m : heap) (t : rtype) (names : list string)
    : outcome (struct_field * heap) :=
  '(t, offsets) ← find_field_loop t names [];
  mangle ← match mangler_Get t with
           | Some f => Ok f
           | None => Panic (no_mangler_for_type t)
           end;
  let '(zero, m) := UnsafeNew m t in
  i ← UnsafeIndirect m t zero;
  Ok ({| type2 := t; offsets := offsets; mangle := mangle; zero := zero;
         zerostr := string_of_list_byte (mangle [] i) |}, m).

(** The path resolves: every name is exported and names a field of the
    struct reached by unwrapping the pointer layers of the current type.
    Each step records the number of layers unwrapped and the offset of the
    field in the struct. *)
Inductive walks : rtype → list string → list next_offset → rtype → Prop :=
| walks_done t : walks t [] [] t
| walks_step t name names fs ft off offs leaf :
    is_exported name = true →
    pointee t = StructOf fs →
    FieldByName fs name = Some (ft, off) →
    walks ft names offs leaf →
    walks t (name :: names)
      ({| derefs := Z.of_nat (pointer_layers t); offset := off |} :: offs) leaf.

(** The path is refused at its first segment that is not exported, that is
    looked up in a type which is no struct once its pointer layers are
    unwrapped, or that the struct has no field for. *)
Inductive rejects : rtype → list string → panic_value → Prop :=
| rejects_unexported t name names :
    is_exported name = false →
    rejects t (name :: names) (field_is_not_exported name)
| rejects_not_struct t name names :
    is_exported name = true →
    Kind_of (pointee t) ≠ Struct →
    rejects t (name :: names) (field_is_not_struct (pointee t) name)
| rejects_unknown t name names fs :
    is_exported name = true →
    pointee t = StructOf fs →
    FieldByName fs name = None →
    rejects t (name :: names) (unknown_field name)
| rejects_later t name names fs ft off e :
    is_exported name = true →
    pointee t = StructOf fs →
    FieldByName fs name = Some (ft, off) →
    rejects ft names e →
    rejects t (name :: names) e.

(** [fld] was compiled by [find_field] for the type [t] and a non-empty
    path, and the heap [m] still holds what the compilation allocated. *)
Definition compiled (m : heap) (t : rtype) (fld : struct_field) : Prop :=
  ∃ m0 names m1,
    names ≠ [] ∧ reflect_ok t = true ∧
    find_field m0 t names = Ok (fld, m1) ∧ m1 ⊆ m.

(** The descriptor that [find_field] builds for a path that resolves to
    [leaf] by the steps [offs], when [mg] is the mangler of [leaf]. *)
Definition descriptor (m : heap) (leaf : rtype) (offs : list next_offset)
    (mg : Mangler) : struct_field :=
  {| type2 := leaf; offsets := offs; mangle := mg;
     zero := (UnsafeNew m leaf).1;
     zerostr := string_of_list_byte (mg [] (eface leaf (zero_value leaf))) |}.

(** *** The heap and the zero value *)

Lemma heap_top_ge (m : heap) k c : m !! k = Some c → k ≤ heap_top m.
Proof.
  unfold heap_top. rewrite map_fold_foldr.
  intros H%elem_of_map_to_list.
  induction (map_to_list m) as [|[k' c'] l IH]; [by apply elem_of_nil in H|].
  apply elem_of_cons in H as [H|H]; cbn.
  - injection H as <- <-. lia.
  - specialize (IH H). lia.
Qed.

Lemma zero_cells_nonneg :
  (∀ t, reflect_ok t = true → ∀ o c, (o, c) ∈ zero_cells t → 0 ≤ o) ∧
  (∀ fs, fields_ok fs = true → ∀ o c, (o, c) ∈ zero_cells_fields fs → 0 ≤ o).
Proof.
  apply rtype_mutind; cbn.
  - intros k _ o c Hin. apply list_elem_of_singleton in Hin. by injection Hin as -> _.
  - intros t _ _ o c Hin. apply list_elem_of_singleton in Hin. by injection Hin as -> _.
  - intros fs IH Hok o c Hin. apply andb_true_iff in Hok as [Hok _]. eauto.
  - intros _ o c Hin. by apply elem_of_nil in Hin.
  - intros n ft IHt off rest IHr Hok o c Hin.
    repeat (apply andb_true_iff in Hok as [Hok ?]).
    apply elem_of_app in Hin as [Hin|Hin]; [|by eauto].
    apply list_elem_of_fmap in Hin as ([o' c'] & Heq & Hin).
    injection Heq as -> ->.
    specialize (IHt ltac:(done) o' c' Hin). lia.
Qed.

Lemma zero_cells_NoDup t : reflect_ok t = true → NoDup (zero_cells t).*1.
Proof.
  destruct t; cbn; intros Hok.
  - apply NoDup_singleton.
  - apply NoDup_singleton.
  - apply andb_true_iff in Hok as [_ Hok]. by apply bool_decide_eq_true in Hok.
Qed.

(** Reading a type where the heap holds its zero cells gives its zero
    value. *)
Lemma read_zero_cells (m : heap) :
  (∀ t p, (∀ o c, (o, c) ∈ zero_cells t → m !! (p + o) = Some c) →
          read_value m t p = Some (zero_value t)) ∧
  (∀ fs p, (∀ o c, (o, c) ∈ zero_cells_fields fs → m !! (p + o) = Some c) →
           read_fields m fs p = Some (zero_fields fs)).
Proof.
  apply rtype_mutind; cbn.
  - intros k p H. specialize (H 0 (zero_cell k) ltac:(by left)).
    rewrite Z.add_0_r in H. rewrite H. destruct k; cbn; try done.
    by rewrite N.eqb_refl.
  - intros t _ p H. specialize (H 0 (CPointer 0) ltac:(by left)).
    rewrite Z.add_0_r in H. unfold load_pointer. by rewrite H.
  - intros fs IH p H. by rewrite (IH p H).
  - done.
  - intros n ft IHt off rest IHr p H.
    rewrite (IHt (p + off)), (IHr p); [done| |].
    + intros o c Hin. apply H, elem_of_app. by right.
    + intros o c Hin. rewrite <- Z.add_assoc. apply H, elem_of_app. left.
      apply list_elem_of_fmap. by exists (o, c).
Qed.

(** [UnsafeNew] leaves the heap it extends intact and the object it returns
    reads as the zero value of the type. *)
Lemma UnsafeNew_zero (m : heap) t :
  reflect_ok t = true →
  m ⊆ (UnsafeNew m t).2 ∧
  read_value (UnsafeNew m t).2 t (UnsafeNew m t).1 = Some (zero_value t).
Proof.
  intros Hok. unfold UnsafeNew; cbn.
  set (p := heap_top m + 16).
  set (new := prod_map (Z.add p) id <$> zero_cells t).
  assert (Hnew : ∀ o c, (o, c) ∈ zero_cells t →
                        (list_to_map new : heap) !! (p + o) = Some c).
  { intros o c Hin. apply elem_of_list_to_map_1.
    - unfold new. rewrite <- list_fmap_compose.
      rewrite (list_fmap_ext _ (Z.add p ∘ fst) (zero_cells t))
        by (by intros ? [? ?]).
      rewrite list_fmap_compose. apply NoDup_fmap; [|by apply zero_cells_NoDup].
      intros ???; lia.
    - apply list_elem_of_fmap. by exists (o, c). }
  split.
  - apply map_union_subseteq_r, map_disjoint_spec.
    intros i x y Hi Hm. apply elem_of_list_to_map_2 in Hi.
    apply list_elem_of_fmap in Hi as ([o c] & Heq & Hin). injection Heq as -> ->.
    apply (proj1 zero_cells_nonneg t Hok) in Hin.
    apply heap_top_ge in Hm. lia.
  - apply (proj1 (read_zero_cells _)). intros o c Hin.
    apply lookup_union_Some_l. by apply Hnew.
Qed.

(** A value read from a heap is still read from any heap extending it. *)
Lemma read_value_weaken (m m' : heap) :
  m ⊆ m' →
  (∀ t p v, read_value m t p = Some v → read_value m' t p = Some v) ∧
  (∀ fs p vs, read_fields m fs p = Some vs → read_fields m' fs p = Some vs).
Proof.
  intros Hsub. apply rtype_mutind; cbn.
  - intros k p v H. destruct (m !! p) as [c|] eqn:Hc; [|done].
    by rewrite (lookup_weaken _ _ _ _ Hc Hsub).
  - intros t _ p v. unfold load_pointer.
    destruct (m !! p) as [c|] eqn:Hc; [|done].
    by rewrite (lookup_weaken _ _ _ _ Hc Hsub).
  - intros fs IH p v H. destruct (read_fields m fs p) as [vs|] eqn:Hvs; [|done].
    by rewrite (IH _ _ Hvs).
  - done.
  - intros n ft IHt off rest IHr p vs H.
    destruct (read_value m ft (p + off)) as [v|] eqn:Hv; [|done].
    destruct (read_fields m rest p) as [ws|] eqn:Hws; [|done].
    by rewrite (IHt _ _ Hv), (IHr _ _ Hws).
Qed.

(** A well-formed instance can be read. *)
Lemma valid_at_read (m : heap) :
  (∀ t p, valid_at m t p = true → is_Some (read_value m t p)) ∧
  (∀ fs p, valid_fields m fs p = true → is_Some (read_fields m fs p)).
Proof.
  apply rtype_mutind; cbn.
  - intros k p H. destruct (m !! p) as [c|]; [|done].
    by apply bool_decide_eq_true in H.
  - intros t _ p H. by destruct (load_pointer m p).
  - intros fs IH p H. destruct (IH p H) as [vs ->]. by eexists.
  - by eexists.
  - intros n ft IHt off rest IHr p H.
    repeat (apply andb_true_iff in H as [H ?]).
    destruct (IHt (p + off)) as [v ->]; [done|].
    destruct (IHr p) as [vs ->]; [done|]. by eexists.
Qed.

(** *** Compilation of a path *)

Lemma wrap_small z : 0 ≤ z < word_modulus → wrap z = z.
Proof. intros H. unfold wrap. by apply Z.mod_small. Qed.

Lemma deref_type_pointee t d : (deref_type t d).1 = pointee t.
Proof. revert d. induction t; intros d; cbn; auto. Qed.

Lemma deref_type_layers t d :
  0 ≤ d → d + Z.of_nat (pointer_layers t) < word_modulus →
  (deref_type t d).2 = d + Z.of_nat (pointer_layers t).
Proof.
  revert d. induction t as [k|t IH|fs]; intros d Hd Hlt; cbn in *; try lia.
  rewrite wrap_small by lia. rewrite IH; lia.
Qed.

Lemma reflect_ok_layers t :
  reflect_ok t = true → Z.of_nat (pointer_layers t) < word_modulus.
Proof.
  destruct t; cbn; intros H; try done.
  apply andb_true_iff in H as [_ H]. by apply Z.ltb_lt in H.
Qed.

Lemma reflect_ok_pointee t : reflect_ok t = true → reflect_ok (pointee t) = true.
Proof.
  induction t as [k|t IH|fs]; cbn; intros H; try done.
  apply andb_true_iff in H as [H _]. auto.
Qed.

Lemma fields_ok_FieldByName fs name ft off :
  fields_ok fs = true → FieldByName fs name = Some (ft, off) →
  reflect_ok ft = true ∧ 0 ≤ off < word_modulus.
Proof.
  induction fs as [|n t o rest IH]; [done|]; cbn.
  intros Hok Hf. repeat (apply andb_true_iff in Hok as [Hok ?]).
  destruct (String.eqb n name); [|by auto].
  injection Hf as -> ->. split; [done|]. lia.
Qed.

Lemma reflect_ok_field t fs name ft off :
  reflect_ok t = true → pointee t = StructOf fs →
  FieldByName fs name = Some (ft, off) →
  reflect_ok ft = true ∧ 0 ≤ off < word_modulus.
Proof.
  intros Hok Hp Hf. apply reflect_ok_pointee in Hok. rewrite Hp in Hok.
  cbn in Hok. apply andb_true_iff in Hok as [Hok _].
  by apply (fields_ok_FieldByName fs name).
Qed.

(** The loop returns exactly when the path resolves, and then with the
    steps of the walk appended to the offsets it started from. *)
Lemma find_field_loop_walks names :
  ∀ t acc leaf r,
    reflect_ok t = true →
    find_field_loop t names acc = Ok (leaf, r) →
    ∃ offs, r = acc ++ offs ∧ walks t names offs leaf ∧ reflect_ok leaf = true.
Proof.
  induction names as [|name names IH]; intros t acc leaf r Hok H; cbn in H.
  - injection H as <- <-. exists []. rewrite app_nil_r. by repeat split; [constructor|].
  - destruct (is_exported name) eqn:Hex; cbn in H; [|done].
    pose proof (deref_type_pointee t 0) as H1.
    pose proof (deref_type_layers t 0 ltac:(done)
                  ltac:(by apply reflect_ok_layers)) as H2.
    destruct (deref_type t 0) as [t' d]; cbn in H1, H2; subst t' d.
    destruct (pointee t) as [| |fs] eqn:Hp; try done.
    destruct (FieldByName fs name) as [[ft off]|] eqn:Hf; [|done].
    destruct (reflect_ok_field t fs name ft off Hok Hp Hf) as [Hft _].
    apply IH in H as (offs & -> & Hw & Hl); [|done].
    eexists (_ :: offs). rewrite <- app_assoc. split; [done|].
    split; [|done]. by econstructor.
Qed.

Lemma walks_find_field_loop t names offs leaf :
  walks t names offs leaf →
  ∀ acc, reflect_ok t = true → find_field_loop t names acc = Ok (leaf, acc ++ offs).
Proof.
  induction 1 as [t|t name names fs ft off offs leaf Hex Hp Hf Hw IH];
    intros acc Hok; cbn.
  - by rewrite app_nil_r.
  - rewrite Hex; cbn.
    pose proof (deref_type_pointee t 0) as H1.
    pose proof (deref_type_layers t 0 ltac:(done)
                  ltac:(by apply reflect_ok_layers)) as H2.
    destruct (deref_type t 0) as [t' d]; cbn in H1, H2; subst t' d.
    rewrite Hp, Hf.
    destruct (reflect_ok_field t fs name ft off Hok Hp Hf) as [Hft _].
    rewrite IH by done. by rewrite <- app_assoc.
Qed.

Lemma walks_length t names offs leaf :
  walks t names offs leaf → length offs = length names.
Proof. induction 1; cbn; congruence. Qed.

Lemma walks_reflect_ok t names offs leaf :
  walks t names offs leaf → reflect_ok t = true → reflect_ok leaf = true.
Proof.
  induction 1 as [t|t name names fs ft off offs leaf Hex Hp Hf Hw IH]; [done|].
  intros Hok. apply IH. by destruct (reflect_ok_field t fs name ft off).
Qed.

(** The loop panics exactly when the path is refused, with the panic of
    the first refused segment, and it never faults. *)
Lemma find_field_loop_rejects names :
  ∀ t acc e, find_field_loop t names acc = Panic e ↔ rejects t names e.
Proof.
  induction names as [|name names IH]; intros t acc e; cbn.
  - split; [done|]. inversion 1.
  - pose proof (deref_type_pointee t 0) as H1.
    destruct (deref_type t 0) as [t' d]; cbn in H1; subst t'.
    destruct (is_exported name) eqn:Hex; cbn.
    + destruct (pointee t) as [k|t'|fs] eqn:Hp.
      * split.
        -- intros [= <-]. rewrite <- Hp. apply rejects_not_struct; [done|by rewrite Hp].
        -- inversion 1; subst; congruence.
      * split.
        -- intros [= <-]. rewrite <- Hp. apply rejects_not_struct; [done|by rewrite Hp].
        -- inversion 1; subst; congruence.
      * destruct (FieldByName fs name) as [[ft off]|] eqn:Hf.
        -- rewrite IH. split.
           ++ intros Hr. by eapply rejects_later.
           ++ inversion 1; subst; try congruence.
              exfalso. rewrite Hp in *. by cbn in *.
        -- split.
           ++ intros [= <-]. by eapply rejects_unknown.
           ++ inversion 1; subst; try congruence.
              exfalso. rewrite Hp in *. by cbn in *.
    + split.
      * intros [= <-]. by constructor.
      * inversion 1; subst; congruence.
Qed.

Lemma find_field_loop_no_fault names :
  ∀ t acc, find_field_loop t names acc ≠ Fault.
Proof.
  induction names as [|name names IH]; intros t acc; cbn; [done|].
  destruct (is_exported name); cbn; [|done].
  destruct (deref_type t 0) as [[k|t'|fs] d]; try done.
  destruct (FieldByName fs name) as [[ft off]|]; [apply IH|done].
Qed.

Lemma find_field_walks m t names offs leaf mg :
  reflect_ok t = true → walks t names offs leaf → mangler_Get leaf = Some mg →
  find_field m t names = Ok (descriptor m leaf offs mg, (UnsafeNew m leaf).2).
Proof.
  intros Hok Hw Hmg. unfold find_field.
  rewrite (walks_find_field_loop t names offs leaf Hw [] Hok); cbn.
  rewrite Hmg; cbn.
  pose proof (walks_reflect_ok _ _ _ _ Hw Hok) as Hleaf.
  destruct (UnsafeNew_zero m leaf Hleaf) as [_ Hz].
  destruct (UnsafeNew m leaf) as [z m'] eqn:Hnew; cbn in *.
  unfold UnsafeIndirect. rewrite Hz; cbn.
  unfold descriptor. by rewrite Hnew.
Qed.

Lemma find_field_Ok m t names fld m' :
  reflect_ok t = true → find_field m t names = Ok (fld, m') →
  ∃ offs leaf mg,
    walks t names offs leaf ∧ mangler_Get leaf = Some mg ∧
    fld = descriptor m leaf offs mg ∧ m' = (UnsafeNew m leaf).2.
Proof.
  intros Hok H.
  destruct (find_field_loop t names []) as [[leaf offs]|e|] eqn:Hloop.
  - apply find_field_loop_walks in Hloop as (offs' & -> & Hw & Hleaf); [|done].
    destruct (mangler_Get leaf) as [mg|] eqn:Hmg.
    + rewrite (find_field_walks m t names offs' leaf mg Hok Hw Hmg) in H.
      injection H as <- <-. by exists offs', leaf, mg.
    + unfold find_field in H.
      rewrite (walks_find_field_loop t names offs' leaf Hw [] Hok) in H.
      cbn in H. by rewrite Hmg in H.
  - unfold find_field in H. by rewrite Hloop in H.
  - unfold find_field in H. by rewrite Hloop in H.
Qed.

Lemma find_field_rejects m t names e :
  rejects t names e → find_field m t names = Panic e.
Proof.
  intros Hr. unfold find_field.
  by rewrite (proj2 (find_field_loop_rejects names t [] e) Hr).
Qed.

Lemma find_field_no_mangler m t names offs leaf :
  reflect_ok t = true → walks t names offs leaf → mangler_Get leaf = None →
  find_field m t names = Panic (no_mangler_for_type leaf).
Proof.
  intros Hok Hw Hmg. unfold find_field.
  rewrite (walks_find_field_loop t names offs leaf Hw [] Hok); cbn.
  by rewrite Hmg.
Qed.

(** Every call of [find_field] is one of three: the path is refused, it
    resolves to a type without mangler, or it resolves and is compiled. *)
Lemma find_field_cases m t names :
  reflect_ok t = true →
  (∃ e, rejects t names e ∧ find_field m t names = Panic e) ∨
  (∃ offs leaf, walks t names offs leaf ∧ mangler_Get leaf = None ∧
     find_field m t names = Panic (no_mangler_for_type leaf)) ∨
  (∃ offs leaf mg, walks t names offs leaf ∧ mangler_Get leaf = Some mg ∧
     find_field m t names = Ok (descriptor m leaf offs mg, (UnsafeNew m leaf).2)).
Proof.
  intros Hok.
  destruct (find_field_loop t names []) as [[leaf offs]|e|] eqn:Hloop.
  - apply find_field_loop_walks in Hloop as (offs' & -> & Hw & Hleaf); [|done].
    right. destruct (mangler_Get leaf) as [mg|] eqn:Hmg.
    + right. exists offs', leaf, mg. eauto using find_field_walks.
    + left. exists offs', leaf. eauto using find_field_no_mangler.
  - left. apply find_field_loop_rejects in Hloop.
    exists e. eauto using find_field_rejects.
  - by apply find_field_loop_no_fault in Hloop.
Qed.

(** C2. Zero consistency. For a type and a non-empty path that
    [find_field] accepts, the descriptor's zero pointer holds the zero value
    of the leaf type in the heap the compilation returns, and the cached
    zero encoding [zerostr] is the descriptor's [mangle] applied to that
    zero value; [mangle] is the mangler of the leaf type. *)
Theorem zerostr_is_mangled_zero_value m t names fld m' :
  reflect_ok t = true → names ≠ [] →
  find_field m t names = Ok (fld, m') →
  ∃ i, UnsafeIndirect m' (type2 fld) (zero fld) = Ok i ∧
       i = eface (type2 fld) (zero_value (type2 fld)) ∧
       zerostr fld = string_of_list_byte (mangle fld [] i) ∧
       mangler_Get (type2 fld) = Some (mangle fld).
Proof.
  intros Hok _ H.
  apply find_field_Ok in H as (offs & leaf & mg & Hw & Hmg & -> & ->); [|done].
  pose proof (walks_reflect_ok _ _ _ _ Hw Hok) as Hleaf.
  destruct (UnsafeNew_zero m leaf Hleaf) as [_ Hz].
  eexists; cbn. unfold UnsafeIndirect. rewrite Hz. by cbn.
Qed.

(** C3. Compile-time rejection. [find_field] panics exactly when the path
    is refused (a segment is not exported, is looked up in a type that is
    not a struct after unwrapping its pointer layers, or names no field of
    the struct) or when the path resolves to a leaf type that has no
    mangler; it returns a descriptor exactly when the path resolves to a
    leaf type with a mangler; and it does nothing else. *)
Theorem find_field_panics_iff_refused m t names :
  reflect_ok t = true →
  (∀ e, find_field m t names = Panic e ↔
        rejects t names e ∨
        ∃ offs leaf, walks t names offs leaf ∧ mangler_Get leaf = None ∧
                     e = no_mangler_for_type leaf) ∧
  ((∃ fld m', find_field m t names = Ok (fld, m')) ↔
   ∃ offs leaf, walks t names offs leaf ∧ is_Some (mangler_Get leaf)) ∧
  find_field m t names ≠ Fault.
Proof.
  intros Hok. split; [|split].
  - intros e. split.
    + intros H.
      destruct (find_field_cases m t names Hok)
        as [(e' & Hr & He)|[(offs & leaf & Hw & Hmg & He)
                           |(offs & leaf & mg & Hw & Hmg & He)]];
        rewrite He in H; [| |done].
      * injection H as <-. by left.
      * injection H as <-. right. by exists offs, leaf.
    + intros [Hr|(offs & leaf & Hw & Hmg & ->)].
      * by apply find_field_rejects.
      * by eapply find_field_no_mangler.
  - split.
    + intros (fld & m' & H).
      apply find_field_Ok in H as (offs & leaf & mg & Hw & Hmg & _); [|done].
      exists offs, leaf. by rewrite Hmg.
    + intros (offs & leaf & Hw & [mg Hmg]).
      eexists _, _. by apply (find_field_walks m t names offs leaf mg).
  - destruct (find_field_cases m t names Hok)
      as [(e' & Hr & ->)|[(offs & leaf & Hw & Hmg & ->)
                         |(offs & leaf & mg & Hw & Hmg & ->)]]; done.
Qed.

(** C5. Navigation steps. For a type and a non-empty path that
    [find_field] accepts, the descriptor has one step for each path segment,
    so at least one; the steps are those of the walk along the path: each
    [derefs] is the number of pointer layers around the type the segment is
    looked up in, each [offset] is the offset of the named field in the
    struct inside those layers, and the type the last step leads to is the
    descriptor's leaf type [type2]. *)
Theorem find_field_steps m t names fld m' :
  reflect_ok t = true → names ≠ [] →
  find_field m t names = Ok (fld, m') →
  walks t names (offsets fld) (type2 fld) ∧
  length (offsets fld) = length names ∧
  (1 ≤ length (offsets fld))%nat.
Proof.
  intros Hok Hne H.
  apply find_field_Ok in H as (offs & leaf & mg & Hw & Hmg & -> & ->); [|done].
  cbn. pose proof (walks_length _ _ _ _ Hw) as Hlen.
  repeat split; [done..|].
  destruct names; [done|]. cbn in Hlen. lia.
Qed.

(** *** Extraction *)

Lemma deref_nil (m : heap) n : deref m 0 n = Ok 0.
Proof. unfold deref. by destruct (Z.to_nat n). Qed.

Lemma deref_once (m : heap) p :
  deref m p 1 = if p =? 0 then Ok 0 else or_fault (load_pointer m p).
Proof.
  unfold deref. replace (Z.to_nat 1) with 1%nat by reflexivity.
  cbn. destruct (p =? 0); [done|]. by destruct (load_pointer m p).
Qed.

(** Dereferencing a well-formed instance through all pointer layers of its
    type ends at nil or at a well-formed instance of the type inside. *)
Lemma deref_valid (m : heap) t :
  ∀ p, address p = true → valid_at m t p = true →
  ∃ q, deref m p (Z.of_nat (pointer_layers t)) = Ok q ∧
       (q = 0 ∨ (address q = true ∧ valid_at m (pointee t) q = true)).
Proof.
  unfold deref. rewrite Nat2Z.id.
  induction t as [k|t IH|fs]; intros p Hp Hv; cbn [pointer_layers pointee deref_loop].
  - exists p. auto.
  - assert (p ≠ 0) as Hne.
    { unfold address in Hp. apply andb_true_iff in Hp as [Hp _].
      apply Z.ltb_lt in Hp. lia. }
    apply Z.eqb_neq in Hne. rewrite Hne.
    cbn in Hv. destruct (load_pointer m p) as [a|]; [|done]. cbn.
    apply orb_true_iff in Hv as [Ha|Hv].
    + apply Z.eqb_eq in Ha as ->. exists 0.
      pose proof (deref_nil m (Z.of_nat (pointer_layers t))) as Hn.
      unfold deref in Hn. rewrite Nat2Z.id in Hn. auto.
    + apply andb_true_iff in Hv as [Ha Hv]. by apply IH.
  - exists p. auto.
Qed.

Lemma valid_fields_FieldByName (m : heap) fs p name ft off :
  valid_fields m fs p = true → FieldByName fs name = Some (ft, off) →
  p + off < word_modulus ∧ valid_at m ft (p + off) = true.
Proof.
  induction fs as [|n t o rest IH]; [done|]; cbn.
  intros Hv Hf. repeat (apply andb_true_iff in Hv as [Hv ?]).
  destruct (String.eqb n name); [|by auto].
  injection Hf as -> ->. apply Z.ltb_lt in Hv. done.
Qed.

(** Once a step dereferences to nil the inner loop ends with the zero
    pointer. *)
Lemma follow_offsets_nil (m : heap) z p offs :
  reaches_nil m p offs → follow_offsets m p z offs = Ok z.
Proof.
  induction 1 as [p off rest Hd|p q off rest Hd Hq Hr IH]; cbn; rewrite Hd; cbn.
  - done.
  - apply Z.eqb_neq in Hq. by rewrite Hq.
Qed.

Lemma follow_offsets_arrives (m : heap) z p offs r :
  arrives m p offs r → follow_offsets m p z offs = Ok r.
Proof.
  induction 1 as [p|p q off rest r Hd Hq Hr IH]; cbn; [done|].
  rewrite Hd; cbn. apply Z.eqb_neq in Hq. by rewrite Hq.
Qed.

Lemma reaches_nil_not_arrives (m : heap) p offs r :
  reaches_nil m p offs → ¬ arrives m p offs r.
Proof.
  induction 1 as [p off rest Hd|p q off rest Hd Hq Hr IH];
    inversion 1; subst; congruence.
Qed.

(** Along a resolved path, from a well-formed instance, the inner loop
    ends with the zero pointer or with a well-formed instance of the leaf
    type. *)
Lemma follow_offsets_valid (m : heap) z t names offs leaf :
  walks t names offs leaf → reflect_ok t = true →
  ∀ p, address p = true → valid_at m t p = true →
  ∃ q, follow_offsets m p z offs = Ok q ∧
       (q = z ∨ (address q = true ∧ valid_at m leaf q = true)).
Proof.
  induction 1 as [t|t name names fs ft off offs leaf Hex Hpt Hf Hw IH];
    intros Hok p Hp Hv; cbn.
  - exists p. auto.
  - destruct (deref_valid m t p Hp Hv) as (q & -> & Hq); cbn.
    destruct Hq as [->|[Hq Hvq]]; [by exists z; auto|].
    assert (0 < q < word_modulus) as Hrange.
    { unfold address in Hq. apply andb_true_iff in Hq as [H1 H2].
      apply Z.ltb_lt in H1, H2. lia. }
    replace (q =? 0) with false by (symmetry; apply Z.eqb_neq; lia).
    rewrite Hpt in Hvq. cbn in Hvq.
    destruct (valid_fields_FieldByName m fs q name ft off Hvq Hf) as [Hlt Hvf].
    destruct (reflect_ok_field t fs name ft off Hok Hpt Hf) as [Hft Hoff].
    rewrite wrap_small by lia.
    apply IH; [done| |done].
    unfold address. apply andb_true_iff. split; apply Z.ltb_lt; lia.
Qed.

(** Along a resolved path, from a well-formed instance, either some step
    dereferences to nil or all steps arrive at a well-formed instance of
    the leaf type. *)
Lemma walk_nil_or_arrives (m : heap) t names offs leaf :
  walks t names offs leaf → reflect_ok t = true →
  ∀ p, address p = true → valid_at m t p = true →
  reaches_nil m p offs ∨
  ∃ q, arrives m p offs q ∧ address q = true ∧ valid_at m leaf q = true.
Proof.
  induction 1 as [t|t name names fs ft off offs leaf Hex Hpt Hf Hw IH];
    intros Hok p Hp Hv.
  - right. exists p. by repeat split; [constructor|..].
  - destruct (deref_valid m t p Hp Hv) as (q & Hd & Hq).
    destruct Hq as [->|[Hq Hvq]]; [left; by apply nil_here|].
    assert (0 < q < word_modulus) as Hrange.
    { unfold address in Hq. apply andb_true_iff in Hq as [H1 H2].
      apply Z.ltb_lt in H1, H2. lia. }
    rewrite Hpt in Hvq. cbn in Hvq.
    destruct (valid_fields_FieldByName m fs q name ft off Hvq Hf) as [Hlt Hvf].
    destruct (reflect_ok_field t fs name ft off Hok Hpt Hf) as [Hft Hoff].
    destruct (IH Hft (q + off)) as [Hnil|(r & Hr & Hra & Hrv)]; [|done|..].
    + unfold address. apply andb_true_iff. split; apply Z.ltb_lt; lia.
    + left. eapply nil_later; [exact Hd|lia|]. cbn. by rewrite wrap_small by lia.
    + right. exists r. split; [|done].
      eapply arrives_step; [exact Hd|lia|]. cbn. by rewrite wrap_small by lia.
Qed.

Lemma compiled_inv m t fld :
  compiled m t fld →
  ∃ names, names ≠ [] ∧ reflect_ok t = true ∧
    walks t names (offsets fld) (type2 fld) ∧
    read_value m (type2 fld) (zero fld) = Some (zero_value (type2 fld)) ∧
    zerostr fld =
      string_of_list_byte (mangle fld [] (eface (type2 fld) (zero_value (type2 fld)))).
Proof.
  intros (m0 & names & m1 & Hne & Hok & H & Hsub).
  apply find_field_Ok in H as (offs & leaf & mg & Hw & Hmg & -> & ->); [|done].
  exists names. repeat split; try done. cbn.
  pose proof (walks_reflect_ok _ _ _ _ Hw Hok) as Hleaf.
  destruct (UnsafeNew_zero m0 leaf Hleaf) as [_ Hz].
  by apply (proj1 (read_value_weaken _ _ Hsub) _ _ _ Hz).
Qed.

Lemma extract_field_zero (m : heap) ptr fld :
  read_value m (type2 fld) (zero fld) = Some (zero_value (type2 fld)) →
  follow_offsets m ptr (zero fld) (offsets fld) = Ok (zero fld) →
  extract_field m ptr fld = Ok (eface (type2 fld) (zero_value (type2 fld))).
Proof.
  intros Hz Hf. unfold extract_field, UnsafeIndirect. rewrite Hf; cbn.
  by rewrite Hz.
Qed.

Lemma walks_nonempty t names offs leaf :
  walks t names offs leaf → names ≠ [] → offs ≠ [].
Proof. by destruct 1. Qed.

(** Extraction of one field returns: for nil, and for a well-formed
    instance of the type the descriptor was compiled for. *)
Lemma extract_field_returns m t ptr fld :
  compiled m t fld →
  ptr = 0 ∨ (address ptr = true ∧ valid_at m t ptr = true) →
  ∃ v, extract_field m ptr fld = Ok v.
Proof.
  intros Hc Hptr.
  destruct (compiled_inv m t fld Hc) as (names & Hne & Hok & Hw & Hz & _).
  destruct Hptr as [->|[Hp Hv]].
  - eexists. apply extract_field_zero; [done|].
    pose proof (walks_nonempty _ _ _ _ Hw Hne).
    destruct (offsets fld) as [|off rest]; [done|]. cbn.
    by rewrite deref_nil.
  - destruct (follow_offsets_valid m (zero fld) _ _ _ _ Hw Hok ptr Hp Hv)
      as (q & Hq & [->|[Hqa Hqv]]).
    + eexists. by apply extract_field_zero.
    + destruct (proj1 (valid_at_read m) _ _ Hqv) as [v Hread].
      exists (eface (type2 fld) v). unfold extract_field, UnsafeIndirect.
      rewrite Hq; cbn. by rewrite Hread.
Qed.

(** X1. When no step dereferences to nil, extraction returns the value of the
    leaf type stored where the path arrives. *)
Lemma extract_field_present m t ptr fld :
  compiled m t fld →
  address ptr = true → valid_at m t ptr = true →
  ¬ reaches_nil m ptr (offsets fld) →
  ∃ q v, arrives m ptr (offsets fld) q ∧
         read_value m (type2 fld) q = Some v ∧
         extract_field m ptr fld = Ok (eface (type2 fld) v).
Proof.
  intros Hc Hp Hv Hnot.
  destruct (compiled_inv m t fld Hc) as (names & Hne & Hok & Hw & Hz & _).
  destruct (walk_nil_or_arrives m _ _ _ _ Hw Hok ptr Hp Hv)
    as [Hnil|(q & Hq & Hqa & Hqv)]; [done|].
  destruct (proj1 (valid_at_read m) _ _ Hqv) as [v Hread].
  exists q, v. do 2 (split; [done|]).
  unfold extract_field, UnsafeIndirect.
  rewrite (follow_offsets_arrives m (zero fld) ptr _ q Hq); cbn.
  by rewrite Hread.
Qed.

(** The outer loop assigns the slots [i], [i+1], ... in order and leaves
    the slots before [i] as they were. *)
Lemma extract_loop_spec (m : heap) ptr fields :
  ∀ i ifaces,
    (i + length fields = length ifaces)%nat →
    Forall (λ fld, ∃ v, extract_field m ptr fld = Ok v) fields →
    ∃ out, extract_loop m ptr i fields ifaces = Ok out ∧
      length out = length ifaces ∧
      (∀ j, (j < i)%nat → out !! j = ifaces !! j) ∧
      (∀ j fld, fields !! j = Some fld →
         ∃ v, extract_field m ptr fld = Ok v ∧ out !! (i + j)%nat = Some v).
Proof.
  induction fields as [|fld fields IH]; intros i ifaces Hlen Hall; cbn.
  - exists ifaces. do 3 (split; [done|]). intros j fld Hj. by destruct j.
  - apply Forall_cons in Hall as [[v Hv] Hall]. rewrite Hv; cbn.
    cbn in Hlen.
    destruct (IH (S i) (<[i:=v]> ifaces)) as (out & -> & Hl & Hbefore & Hafter);
      [rewrite length_insert; lia|done|].
    exists out. rewrite length_insert in Hl. do 2 (split; [done|]). split.
    + intros j Hj. rewrite Hbefore by lia.
      apply list_lookup_insert_ne. lia.
    + intros [|j] fld' Hj; cbn in Hj.
      * injection Hj as <-. exists v. split; [done|].
        rewrite Nat.add_0_r, Hbefore by lia.
        apply list_lookup_insert_eq. lia.
      * destruct (Hafter j fld' Hj) as (w & Hw & Hout). exists w.
        split; [done|]. by replace (i + S j)%nat with (S i + j)%nat by lia.
Qed.

Lemma follow_offsets_from_nil m t fld :
  compiled m t fld → follow_offsets m 0 (zero fld) (offsets fld) = Ok (zero fld).
Proof.
  intros Hc.
  destruct (compiled_inv m t fld Hc) as (names & Hne & Hok & Hw & Hz & _).
  pose proof (walks_nonempty _ _ _ _ Hw Hne).
  destruct (offsets fld) as [|off rest]; [done|]. cbn. by rewrite deref_nil.
Qed.

(** C1. Graceful absence. For a compiled descriptor and an instance of the
    type it was compiled for (nil, or a well-formed instance in the heap),
    extraction of the field returns a value and neither panics nor faults;
    and whenever some navigation step dereferences to nil, what it returns
    is exactly the zero value of the leaf type, whose encoding by the
    descriptor's [mangle] is the cached [zerostr]. *)
Theorem extract_field_absent_is_zero m t ptr fld :
  compiled m t fld →
  ptr = 0 ∨ (address ptr = true ∧ valid_at m t ptr = true) →
  (∃ v, extract_field m ptr fld = Ok v) ∧
  (reaches_nil m ptr (offsets fld) →
   extract_field m ptr fld = Ok (eface (type2 fld) (zero_value (type2 fld))) ∧
   string_of_list_byte
     (mangle fld [] (eface (type2 fld) (zero_value (type2 fld)))) = zerostr fld).
Proof.
  intros Hc Hptr. split; [by eapply extract_field_returns|].
  intros Hnil.
  destruct (compiled_inv m t fld Hc) as (names & Hne & Hok & Hw & Hz & Hstr).
  split; [|done].
  apply extract_field_zero; [done|]. by apply follow_offsets_nil.
Qed.

(** C6. Order preservation. For an instance (nil, or well-formed in the
    heap) and a sequence of descriptors compiled for its type,
    [extract_fields] returns a sequence of the same length whose [i]-th
    element is the value extracted for the [i]-th descriptor. *)
Theorem extract_fields_one_per_descriptor m t ptr fields :
  Forall (compiled m t) fields →
  ptr = 0 ∨ (address ptr = true ∧ valid_at m t ptr = true) →
  ∃ ifaces, extract_fields m ptr fields = Ok ifaces ∧
    length ifaces = length fields ∧
    ∀ i fld, fields !! i = Some fld →
      ∃ v, extract_field m ptr fld = Ok v ∧ ifaces !! i = Some v.
Proof.
  intros Hall Hptr. unfold extract_fields.
  destruct (extract_loop_spec m ptr fields 0 (replicate (length fields) nil_any))
    as (out & Hout & Hlen & _ & Hnth).
  - by rewrite length_replicate.
  - eapply Forall_impl; [exact Hall|]. intros fld Hc. cbn.
    by eapply extract_field_returns.
  - exists out. rewrite length_replicate in Hlen. by repeat split.
Qed.

(** C9. Nil instance. For descriptors compiled (each for some type and a
    non-empty path), [extract_fields] on the nil pointer returns, for every
    descriptor, the zero value of its leaf type. [deref] of nil is nil for
    every count, zero included, without reading the heap, and the inner
    loop then ends with the descriptor's zero pointer before any offset is
    added. *)
Theorem extract_fields_nil_instance m fields :
  Forall (λ fld, ∃ t, compiled m t fld) fields →
  extract_fields m 0 fields =
    Ok ((λ fld, eface (type2 fld) (zero_value (type2 fld))) <$> fields) ∧
  (∀ n, deref m 0 n = Ok 0) ∧
  Forall (λ fld, follow_offsets m 0 (zero fld) (offsets fld) = Ok (zero fld))
         fields.
Proof.
  intros Hall.
  assert (Hzero : Forall (λ fld, extract_field m 0 fld =
              Ok (eface (type2 fld) (zero_value (type2 fld)))) fields).
  { eapply Forall_impl; [exact Hall|]. intros fld [t Hc]. cbn.
    destruct (compiled_inv m t fld Hc) as (names & Hne & Hok & Hw & Hz & _).
    apply extract_field_zero; [done|]. by eapply follow_offsets_from_nil. }
  split; [|split].
  - unfold extract_fields.
    destruct (extract_loop_spec m 0 fields 0 (replicate (length fields) nil_any))
      as (out & -> & Hlen & _ & Hnth).
    + by rewrite length_replicate.
    + eapply Forall_impl; [exact Hzero|]. intros fld Hfld. cbn in *. eauto.
    + f_equal. rewrite length_replicate in Hlen.
      apply list_eq. intros j. rewrite list_lookup_fmap.
      destruct (fields !! j) as [fld|] eqn:Hj; cbn.
      * destruct (Hnth j fld Hj) as (v & Hv & Hout). cbn in Hout. rewrite Hout.
        rewrite (proj1 (Forall_lookup _ _) Hzero j fld Hj) in Hv.
        by injection Hv as <-.
      * apply lookup_ge_None. apply lookup_ge_None in Hj. lia.
  - apply deref_nil.
  - eapply Forall_impl; [exact Hall|]. intros fld [t Hc]. cbn.
    by eapply follow_offsets_from_nil.
Qed.

End Runtime.

(** *** The canonical encoder *)

(** Modelled from the spec: the canonical encoder, which go-mangler provides
    and which is not among the sources. Spec sections 4.2 and 9: leaf values
    are a closed set of variants (numeric, text, boolean, timestamp,
    absent); numerics and timestamps have a fixed-width encoding, strings
    are length-prefixed, booleans are one byte, and the absent value has an
    encoding of its own. *)
Inductive leaf_value :=
| Numeric (z : Z)
| Text (s : string)
| Boolean (b : bool)
| Timestamp (nanoseconds : Z)
| Absent.

Definition to_byte (z : Z) : Byte.byte :=
  default x00 (Byte.of_N (Z.to_N (z mod 256))).

(** Eight bytes, most significant first. *)
Definition fixed_width (z : Z) : list Byte.byte :=
  (λ i, to_byte (Z.shiftr (wrap z) (8 * i))) <$> [7; 6; 5; 4; 3; 2; 1; 0].

Definition encode (v : leaf_value) : list Byte.byte :=
  match v with
  | Numeric z => fixed_width z
  | Text s => fixed_width (Z.of_nat (String.length s)) ++ list_byte_of_string s
  | Boolean b => [if b then x01 else x00]
  | Timestamp ns => fixed_width ns
  | Absent => [xff]
  end.

(** Modelled from the spec: the variant an interface value is encoded as. A
    nil interface and a nil pointer are absent (spec 4.2: "the absent
    sentinel produced by the Value Extractor"). *)
Definition leaf_of (v : any) : option leaf_value :=
  match v with
  | nil_any => Some Absent
  | eface _ (VBool b) => Some (Boolean b)
  | eface _ (VInt z) => Some (Numeric z)
  | eface _ (VUint z) => Some (Numeric z)
  | eface _ (VString s) => Some (Text s)
  | eface _ (VOther _ _) => None
  | eface _ (VPointer a) => if a =? 0 then Some Absent else None
  | eface _ (VStruct _) => None
  end.

(** Modelled from the spec: [mangler.Get]. "Unknown/unsupported types fail
    encoder lookup"; the supported ones here are bool, int, uint and string.
    The mangler appends the encoding to the buffer it is given. *)
Definition canonical_mangler : Mangler :=
  λ buf v, buf ++ from_option encode [] (leaf_of v).

Definition canonical_Get (t : rtype) : option Mangler :=
  match t with
  | Basic (Other _) => None
  | Basic _ => Some canonical_mangler
  | _ => None
  end.

(** C7. Determinism. The mangler that a compilation with the canonical
    encoder puts in a descriptor encodes a value the same way in every
    call: whatever the buffer it appends to, the bytes appended for [v] are
    the encoding of [v] and nothing else. *)
Theorem mangle_deterministic up m t names fld m' :
  reflect_ok t = true →
  find_field up canonical_Get m t names = Ok (fld, m') →
  ∀ v buf buf', ∃ enc,
    mangle fld buf v = buf ++ enc ∧ mangle fld buf' v = buf' ++ enc ∧
    mangle fld [] v = enc.
Proof.
  intros Hok H v buf buf'.
  apply find_field_Ok in H as (offs & leaf & mg & Hw & Hmg & -> & ->); [|done].
  cbn. destruct leaf as [[| | | |k]|elem|fs]; cbn in Hmg; try done;
    injection Hmg as <-; by exists (from_option encode [] (leaf_of v)).
Qed.

(** *** The scenario of the specification *)

(** No upper-case letter beyond Latin-1: enough for names within Latin-1. *)
Definition latin1_only : Z → bool := λ _, false.

(** [Person { name: string, address: optional Address }] and
    [Address { city: string }], with the field names in lower case. *)
Definition address_lower : rtype :=
  StructOf (field "city" (Basic String) 0 no_fields).

Definition person_lower : rtype :=
  StructOf (field "name" (Basic String) 0
           (field "address" (PointerTo address_lower) 16 no_fields)).

(** The same types as Go declares them for use with go-structr:
    [type Address struct { City string }] and
    [type Person struct { Name string; Address *Address }]. A string header
    is 16 bytes wide. *)
Definition Address : rtype :=
  StructOf (field "City" (Basic String) 0 no_fields).

Definition Person : rtype :=
  StructOf (field "Name" (Basic String) 0
           (field "Address" (PointerTo Address) 16 no_fields)).

(** A heap with one [Person] at address 4096 whose [Address] is nil. *)
Definition ann_ptr : Z := 4096.

Definition ann_heap : heap :=
  <[4096 := CString "Ann"]> (<[4112 := CPointer 0]> ∅).

(** C4 as stated fails: with the field names of the claim, compiling
    [["address"; "city"]] panics on the first name, which is not exported. *)
Lemma person_lower_case_path_is_refused :
  find_field latin1_only canonical_Get ann_heap person_lower ["address"; "city"]
    = Panic (field_is_not_exported "address") ∧
  ¬ ∃ fld m', find_field latin1_only canonical_Get ann_heap person_lower
                ["address"; "city"] = Ok (fld, m').
Proof. split; [reflexivity|]. intros (fld & m' & H). discriminate H. Qed.

(** C4, amended. With exported field names, for every range table, every
    mangler [mg] of strings and every heap holding at [ptr] a [Person] whose
    [Address] pointer is nil: compiling [["Address"; "City"]] returns a
    descriptor (two steps, leaf type string); extracting with it from
    [ptr] yields the empty string, and the descriptor's zero encoding is
    [mg] applied to the empty string; compiling [["Address"; "Country"]]
    panics with "unknown field". *)
Theorem person_address_city up mget mg (m : heap) ptr :
  mget (Basic String) = Some mg →
  0 < ptr → ptr + 16 < word_modulus →
  m !! (ptr + 16) = Some (CPointer 0) →
  (∃ fld m',
     find_field up mget m Person ["Address"; "City"] = Ok (fld, m') ∧
     offsets fld = [ {| derefs := 0; offset := 16 |};
                     {| derefs := 1; offset := 0 |} ] ∧
     type2 fld = Basic String ∧
     extract_field m' ptr fld = Ok (eface (Basic String) (VString "")) ∧
     zerostr fld =
       string_of_list_byte (mg [] (eface (Basic String) (VString "")))) ∧
  find_field up mget m Person ["Address"; "Country"]
    = Panic (unknown_field "Country").
Proof.
  intros Hmg Hptr Hlt Haddr. split; [|reflexivity].
  assert (Hw : walks up Person ["Address"; "City"]
                 [ {| derefs := 0; offset := 16 |};
                   {| derefs := 1; offset := 0 |} ] (Basic String)).
  { eapply (walks_step up Person); [reflexivity..|].
    eapply (walks_step up (PointerTo Address)); [reflexivity..|].
    apply walks_done. }
  pose proof (find_field_walks up mget m Person _ _ _ mg eq_refl Hw Hmg) as Hc.
  destruct (UnsafeNew_zero m (Basic String) eq_refl) as [Hsub Hz].
  eexists _, _. split; [exact Hc|].
  split; [reflexivity|]. split; [reflexivity|]. split; [|reflexivity].
  apply extract_field_zero; [exact Hz|].
  change (offsets (descriptor _ _ ?o _)) with o.
  change (zero (descriptor ?h ?l _ _)) with (UnsafeNew h l).1.
  apply follow_offsets_nil. eapply nil_later.
  - reflexivity.
  - lia.
  - cbn. rewrite wrap_small by lia. apply nil_here.
    cbn [derefs]. rewrite deref_once.
    replace (ptr + 16 =? 0) with false by (symmetry; apply Z.eqb_neq; lia).
    unfold load_pointer. by rewrite (lookup_weaken _ _ _ _ Haddr Hsub).
Qed.

(** *** A concrete run

    Two descriptors are compiled one after the other in [ann_heap], for the
    paths [Address.City] and [Name] of [Person]. *)
Definition city_steps : list next_offset :=
  [ {| derefs := 0; offset := 16 |}; {| derefs := 1; offset := 0 |} ].

Definition city_field : struct_field :=
  descriptor ann_heap (Basic String) city_steps canonical_mangler.

Definition city_heap : heap := (UnsafeNew ann_heap (Basic String)).2.

Definition name_field : struct_field :=
  descriptor city_heap (Basic String) [ {| derefs := 0; offset := 0 |} ]
             canonical_mangler.

Definition name_heap : heap := (UnsafeNew city_heap (Basic String)).2.

(** A second [Person] whose [Address] is present, with city "Berlin". *)
Definition berlin_heap : heap :=
  <[8192 := CString "Bea"]> (<[8208 := CPointer 8448]>
    (<[8448 := CString "Berlin"]> name_heap)).

Lemma city_field_found :
  find_field latin1_only canonical_Get ann_heap Person ["Address"; "City"]
    = Ok (city_field, city_heap).
Proof. reflexivity. Qed.

Lemma name_field_found :
  find_field latin1_only canonical_Get city_heap Person ["Name"]
    = Ok (name_field, name_heap).
Proof. reflexivity. Qed.

Lemma city_heap_name_heap : city_heap ⊆ name_heap.
Proof. by apply UnsafeNew_zero. Qed.

Lemma city_field_compiled :
  compiled latin1_only canonical_Get name_heap Person city_field.
Proof.
  exists ann_heap, ["Address"; "City"], city_heap.
  split; [done|]. split; [reflexivity|].
  split; [exact city_field_found|exact city_heap_name_heap].
Qed.

Lemma name_field_compiled :
  compiled latin1_only canonical_Get name_heap Person name_field.
Proof.
  exists city_heap, ["Name"], name_heap.
  split; [done|]. split; [reflexivity|].
  split; [exact name_field_found|done].
Qed.

Lemma ann_is_valid :
  address ann_ptr = true ∧ valid_at name_heap Person ann_ptr = true.
Proof. split; reflexivity. Qed.

Lemma ann_reaches_nil : reaches_nil name_heap ann_ptr (offsets city_field).
Proof.
  eapply nil_later; [reflexivity|done|]. apply nil_here. reflexivity.
Qed.

Example ann_extracted :
  extract_fields name_heap ann_ptr [city_field; name_field]
    = Ok [ eface (Basic String) (VString ""); eface (Basic String) (VString "Ann") ].
Proof. reflexivity. Qed.

Example bea_extracted :
  extract_fields berlin_heap 8192 [city_field; name_field]
    = Ok [ eface (Basic String) (VString "Berlin");
           eface (Basic String) (VString "Bea") ].
Proof. reflexivity. Qed.

Example nil_extracted :
  extract_fields name_heap 0 [city_field; name_field]
    = Ok [ eface (Basic String) (VString ""); eface (Basic String) (VString "") ].
Proof. reflexivity. Qed.

Example city_zerostr :
  list_byte_of_string (zerostr city_field) = [x00; x00; x00; x00; x00; x00; x00; x00].
Proof. reflexivity. Qed.

Lemma extract_field_absent_is_zero_witness :
  reaches_nil name_heap ann_ptr (offsets city_field) ∧
  (∃ v, extract_field name_heap ann_ptr city_field = Ok v) ∧
  (reaches_nil name_heap ann_ptr (offsets city_field) →
   extract_field name_heap ann_ptr city_field
     = Ok (eface (type2 city_field) (zero_value (type2 city_field))) ∧
   string_of_list_byte
     (mangle city_field [] (eface (type2 city_field) (zero_value (type2 city_field))))
     = zerostr city_field).
Proof.
  split; [exact ann_reaches_nil|].
  apply (extract_field_absent_is_zero latin1_only canonical_Get
           name_heap Person ann_ptr city_field).
  - exact city_field_compiled.
  - right. split; reflexivity.
Defined.

Lemma zerostr_is_mangled_zero_value_witness :
  ∃ i, UnsafeIndirect city_heap (type2 city_field) (zero city_field) = Ok i ∧
       i = eface (type2 city_field) (zero_value (type2 city_field)) ∧
       zerostr city_field = string_of_list_byte (mangle city_field [] i) ∧
       canonical_Get (type2 city_field) = Some (mangle city_field).
Proof.
  apply (zerostr_is_mangled_zero_value latin1_only canonical_Get
           ann_heap Person ["Address"; "City"] city_field city_heap).
  - reflexivity.
  - discriminate.
  - reflexivity.
Defined.

Lemma find_field_panics_iff_refused_witness :
  (∀ e, find_field latin1_only canonical_Get ann_heap Person ["Address"; "Country"]
          = Panic e ↔
        rejects latin1_only Person ["Address"; "Country"] e ∨
        ∃ offs leaf, walks latin1_only Person ["Address"; "Country"] offs leaf ∧
                     canonical_Get leaf = None ∧ e = no_mangler_for_type leaf) ∧
  ((∃ fld m', find_field latin1_only canonical_Get ann_heap Person
                ["Address"; "Country"] = Ok (fld, m')) ↔
   ∃ offs leaf, walks latin1_only Person ["Address"; "Country"] offs leaf ∧
                is_Some (canonical_Get leaf)) ∧
  find_field latin1_only canonical_Get ann_heap Person ["Address"; "Country"]
    ≠ Fault.
Proof.
  apply (find_field_panics_iff_refused latin1_only canonical_Get
           ann_heap Person ["Address"; "Country"]).
  reflexivity.
Defined.

Lemma find_field_steps_witness :
  walks latin1_only Person ["Address"; "City"]
        (offsets city_field) (type2 city_field) ∧
  length (offsets city_field) = length ["Address"; "City"] ∧
  (1 ≤ length (offsets city_field))%nat.
Proof.
  apply (find_field_steps latin1_only canonical_Get
           ann_heap Person ["Address"; "City"] city_field city_heap).
  - reflexivity.
  - discriminate.
  - reflexivity.
Defined.

Lemma extract_fields_one_per_descriptor_witness :
  ∃ ifaces,
    extract_fields name_heap ann_ptr [city_field; name_field] = Ok ifaces ∧
    length ifaces = length [city_field; name_field] ∧
    ∀ i fld, [city_field; name_field] !! i = Some fld →
      ∃ v, extract_field name_heap ann_ptr fld = Ok v ∧ ifaces !! i = Some v.
Proof.
  apply (extract_fields_one_per_descriptor latin1_only canonical_Get
           name_heap Person ann_ptr [city_field; name_field]).
  - repeat constructor; [exact city_field_compiled|exact name_field_compiled].
  - right. split; reflexivity.
Defined.

Lemma extract_fields_nil_instance_witness :
  extract_fields name_heap 0 [city_field; name_field] =
    Ok ((λ fld, eface (type2 fld) (zero_value (type2 fld)))
          <$> [city_field; name_field]) ∧
  (∀ n, deref name_heap 0 n = Ok 0) ∧
  Forall (λ fld, follow_offsets name_heap 0 (zero fld) (offsets fld) = Ok (zero fld))
         [city_field; name_field].
Proof.
  apply (extract_fields_nil_instance latin1_only canonical_Get
           name_heap [city_field; name_field]).
  repeat constructor.
  - exists Person. exact city_field_compiled.
  - exists Person. exact name_field_compiled.
Defined.

Lemma mangle_deterministic_witness :
  ∃ enc,
    mangle city_field [] (eface (Basic String) (VString "Berlin")) = [] ++ enc ∧
    mangle city_field [x2f] (eface (Basic String) (VString "Berlin"))
      = [x2f] ++ enc ∧
    mangle city_field [] (eface (Basic String) (VString "Berlin")) = enc.
Proof.
  apply (mangle_deterministic latin1_only ann_heap Person ["Address"; "City"]
           city_field city_heap).
  - reflexivity.
  - reflexivity.
Defined.

Lemma person_address_city_witness :
  (∃ fld m',
     find_field latin1_only canonical_Get ann_heap Person ["Address"; "City"]
       = Ok (fld, m') ∧
     offsets fld = [ {| derefs := 0; offset := 16 |};
                     {| derefs := 1; offset := 0 |} ] ∧
     type2 fld = Basic String ∧
     extract_field m' ann_ptr fld = Ok (eface (Basic String) (VString "")) ∧
     zerostr fld =
       string_of_list_byte
         (canonical_mangler [] (eface (Basic String) (VString "")))) ∧
  find_field latin1_only canonical_Get ann_heap Person ["Address"; "Country"]
    = Panic (unknown_field "Country").
Proof.
  apply (person_address_city latin1_only canonical_Get canonical_mangler
           ann_heap ann_ptr).
  - reflexivity.
  - reflexivity.
  - reflexivity.
  - reflexivity.
Defined.

(** *** Further properties of the runtime *)

(** What [extract_fields] computes, field by field. *)
Fixpoint extract_all (m : heap) (ptr : Z) (fields : list struct_field)
    : outcome (list any) :=
  match fields with
  | [] => Ok []
  | fld :: fields =>
      v ← extract_field m ptr fld;
      vs ← extract_all m ptr fields;
      Ok (v :: vs)
  end.

Lemma extract_loop_all (m : heap) ptr fields :
  ∀ done rest,
    length rest = length fields →
    extract_loop m ptr (length done) fields (done ++ rest) =
      vs ← extract_all m ptr fields; Ok (done ++ vs).
Proof.
  induction fields as [|fld fields IH]; intros done rest Hlen; cbn.
  - destruct rest; [|done]. by rewrite !app_nil_r.
  - destruct rest as [|slot rest]; [done|].
    destruct (extract_field m ptr fld) as [v| |]; cbn; [|done..].
    replace (<[length done:=v]> (done ++ slot :: rest))
      with ((done ++ [v]) ++ rest).
    + replace (S (length done)) with (length (done ++ [v]))
        by (rewrite length_app; cbn; lia).
      rewrite IH by (cbn in Hlen; lia).
      destruct (extract_all m ptr fields); cbn; [|done..].
      by rewrite <- app_assoc.
    + rewrite <- app_assoc. cbn.
      replace (length done) with (length done + 0)%nat at 1 by lia.
      by rewrite insert_app_r.
Qed.

Lemma extract_fields_all (m : heap) ptr fields :
  extract_fields m ptr fields = extract_all m ptr fields.
Proof.
  unfold extract_fields.
  pose proof (extract_loop_all m ptr fields [] _ (length_replicate _ nil_any)) as H.
  cbn in H. rewrite H. by destruct (extract_all m ptr fields).
Qed.

Lemma extract_all_app (m : heap) ptr l1 l2 :
  extract_all m ptr (l1 ++ l2) =
    v1 ← extract_all m ptr l1; v2 ← extract_all m ptr l2; Ok (v1 ++ v2).
Proof.
  induction l1 as [|fld l1 IH]; cbn.
  - by destruct (extract_all m ptr l2).
  - destruct (extract_field m ptr fld); cbn; [|done..].
    rewrite IH. destruct (extract_all m ptr l1); cbn; [|done..].
    by destruct (extract_all m ptr l2).
Qed.

(** X2. Extraction with two lists of descriptors, one after the other in one
    call, gives the results of the two separate calls, concatenated; a
    fault in either is a fault of the whole. *)
Theorem extract_fields_app (m : heap) ptr l1 l2 :
  extract_fields m ptr (l1 ++ l2) =
    v1 ← extract_fields m ptr l1; v2 ← extract_fields m ptr l2; Ok (v1 ++ v2).
Proof. rewrite !extract_fields_all. apply extract_all_app. Qed.

Lemma load_pointer_weaken (m m' : heap) p a :
  m ⊆ m' → load_pointer m p = Some a → load_pointer m' p = Some a.
Proof.
  intros Hsub. unfold load_pointer.
  destruct (m !! p) as [c|] eqn:Hc; [|done].
  by rewrite (lookup_weaken _ _ _ _ Hc Hsub).
Qed.

Lemma deref_weaken (m m' : heap) n :
  m ⊆ m' → ∀ p q, deref m p n = Ok q → deref m' p n = Ok q.
Proof.
  intros Hsub. unfold deref.
  induction (Z.to_nat n) as [|k IH]; intros p q; cbn; [done|].
  destruct (p =? 0); [done|].
  destruct (load_pointer m p) as [a|] eqn:Ha; cbn; [|done].
  rewrite (load_pointer_weaken m m' p a Hsub Ha). cbn. apply IH.
Qed.

Lemma follow_offsets_weaken (m m' : heap) z offs :
  m ⊆ m' → ∀ p q, follow_offsets m p z offs = Ok q →
                  follow_offsets m' p z offs = Ok q.
Proof.
  intros Hsub. induction offs as [|off offs IH]; intros p q; cbn; [done|].
  destruct (deref m p (derefs off)) as [r| |] eqn:Hd; cbn; [|done..].
  rewrite (deref_weaken m m' _ Hsub p r Hd). cbn.
  destruct (r =? 0); [done|]. apply IH.
Qed.

Lemma extract_field_weaken (m m' : heap) ptr fld v :
  m ⊆ m' → extract_field m ptr fld = Ok v → extract_field m' ptr fld = Ok v.
Proof.
  intros Hsub. unfold extract_field, UnsafeIndirect.
  destruct (follow_offsets m ptr (zero fld) (offsets fld)) as [q| |] eqn:Hq;
    cbn; [|done..].
  rewrite (follow_offsets_weaken m m' _ _ Hsub ptr q Hq). cbn.
  destruct (read_value m (type2 fld) q) as [w|] eqn:Hw; cbn; [|done].
  by rewrite (proj1 (read_value_weaken m m' Hsub) _ _ _ Hw).
Qed.

(** X3. Extraction is stable under allocation: what [extract_fields] returns
    in a heap it returns in every heap that extends it. *)
Theorem extract_fields_stable (m m' : heap) ptr fields vs :
  m ⊆ m' →
  extract_fields m ptr fields = Ok vs → extract_fields m' ptr fields = Ok vs.
Proof.
  intros Hsub. rewrite !extract_fields_all. revert vs.
  induction fields as [|fld fields IH]; intros vs; cbn; [done|].
  destruct (extract_field m ptr fld) as [v| |] eqn:Hv; cbn; [|done..].
  rewrite (extract_field_weaken m m' ptr fld v Hsub Hv). cbn.
  destruct (extract_all m ptr fields) as [ws| |]; cbn; [|done..].
  by rewrite (IH ws).
Qed.

(** X4. [deref] composes: [a + b] dereferences are [a] dereferences followed
    by [b] more. *)
Theorem deref_add (m : heap) p a b :
  0 ≤ a → 0 ≤ b →
  deref m p (a + b) = q ← deref m p a; deref m q b.
Proof.
  intros Ha Hb. unfold deref. rewrite Z2Nat.inj_add by done.
  generalize (Z.to_nat b) as k. intros k. revert p.
  induction (Z.to_nat a) as [|n IH]; intros p; cbn; [done|].
  destruct (Z.eqb_spec p 0) as [->|Hp].
  - cbn. by destruct k.
  - destruct (load_pointer m p); cbn; [apply IH|done].
Qed.


Lemma follow_offsets_zero_irrelevant (m : heap) z1 z2 offs :
  ∀ p, reaches_nil m p offs ∨
       follow_offsets m p z1 offs = follow_offsets m p z2 offs.
Proof.
  induction offs as [|off offs IH]; intros p; cbn; [by right|].
  destruct (deref m p (derefs off)) as [q| |] eqn:Hd; cbn; [|by right..].
  destruct (Z.eqb_spec q 0) as [->|Hq]; [left; by apply nil_here|].
  destruct (IH (wrap (q + offset off))) as [Hnil|Heq]; [|by right].
  left. by eapply nil_later.
Qed.

Lemma is_exported_ascii up c rest :
  byte_of c < 0x80 →
  is_exported up (String.String c rest) = (0x41 <=? byte_of c) && (byte_of c <=? 0x5A).
Proof.
  intros Hc. unfold is_exported, DecodeRuneInString. cbn [list_ascii_of_string].
  assert (0 ≤ byte_of c) as Hc0 by (unfold byte_of; lia).
  unfold first. replace (byte_of c <? 128) with true by (symmetry; apply Z.ltb_lt; lia).
  cbn. unfold IsUpper, latin1_upper.
  replace (byte_of c <=? 255) with true by (symmetry; apply Z.leb_le; lia).
  replace (192 <=? byte_of c) with false by (symmetry; apply Z.leb_gt; lia).
  replace (216 <=? byte_of c) with false by (symmetry; apply Z.leb_gt; lia).
  cbn. by rewrite !orb_false_r.
Qed.

Section RuntimeProperties.

Variable unicode_Upper : Z → bool.
Variable mangler_Get : rtype → option Mangler.

Local Abbreviation find_field := (find_field unicode_Upper mangler_Get).
Local Abbreviation find_field_loop := (find_field_loop unicode_Upper).

(** X5. A path whose first name begins with an ASCII character other than a
    capital letter is refused, whatever the type and the rest of the path:
    [find_field] panics with "field is not exported" for that name. *)
Theorem find_field_refuses_ascii_non_capital (m : heap) t c rest names :
  byte_of c < 0x80 →
  (byte_of c < 0x41 ∨ 0x5A < byte_of c) →
  find_field m t (String.String c rest :: names)
    = Panic (field_is_not_exported (String.String c rest)).
Proof.
  intros Hc Hnot. apply find_field_rejects, rejects_unexported.
  rewrite is_exported_ascii by done.
  destruct Hnot.
  - replace (65 <=? byte_of c) with false by (symmetry; apply Z.leb_gt; lia). done.
  - replace (byte_of c <=? 90) with false by (symmetry; apply Z.leb_gt; lia).
    apply andb_false_r.
Qed.

(** X6. The loop of [find_field] composes along a path: resolving [n1 ++ n2]
    is resolving [n1] and then [n2] from the type and with the offsets
    that [n1] led to. *)
Theorem find_field_loop_app n1 n2 :
  ∀ t acc,
    find_field_loop t (n1 ++ n2) acc =
      '(mid, acc') ← find_field_loop t n1 acc; find_field_loop mid n2 acc'.
Proof.
  induction n1 as [|name n1 IH]; intros t acc; cbn; [done|].
  destruct (is_exported unicode_Upper name); cbn; [|done].
  destruct (deref_type t 0) as [[k|elem|fs] d]; try done.
  destruct (FieldByName fs name) as [[ft off]|]; [apply IH|done].
Qed.


(** X8. Compiling the same path for the same type twice, in whatever heaps,
    gives descriptors with the same leaf type, steps, mangler and zero
    encoding, and in a heap that holds both zero values they extract the
    same result from every pointer. *)
Theorem recompiled_descriptors_agree (m1 m2 m : heap) t names f1 f2 m1' m2' :
  reflect_ok t = true →
  find_field m1 t names = Ok (f1, m1') →
  find_field m2 t names = Ok (f2, m2') →
  m1' ⊆ m → m2' ⊆ m →
  type2 f1 = type2 f2 ∧ offsets f1 = offsets f2 ∧ mangle f1 = mangle f2 ∧
  zerostr f1 = zerostr f2 ∧
  ∀ ptr, extract_field m ptr f1 = extract_field m ptr f2.
Proof.
  intros Hok H1 H2 Hs1 Hs2.
  apply find_field_Ok in H1 as (o1 & l1 & g1 & Hw1 & Hg1 & -> & ->); [|done].
  apply find_field_Ok in H2 as (o2 & l2 & g2 & Hw2 & Hg2 & -> & ->); [|done].
  pose proof (walks_find_field_loop _ _ _ _ _ Hw1 [] Hok) as E1.
  pose proof (walks_find_field_loop _ _ _ _ _ Hw2 [] Hok) as E2.
  rewrite E1 in E2. injection E2 as <- <-.
  rewrite Hg1 in Hg2. injection Hg2 as <-.
  cbn. do 4 (split; [done|]). intros ptr.
  pose proof (walks_reflect_ok _ _ _ _ _ Hw1 Hok) as Hleaf.
  destruct (UnsafeNew_zero m1 l1 Hleaf) as [_ Hz1].
  destruct (UnsafeNew_zero m2 l1 Hleaf) as [_ Hz2].
  apply (proj1 (read_value_weaken _ _ Hs1)) in Hz1.
  apply (proj1 (read_value_weaken _ _ Hs2)) in Hz2.
  unfold extract_field; cbn.
  destruct (follow_offsets_zero_irrelevant m
              (UnsafeNew m1 l1).1 (UnsafeNew m2 l1).1 o1 ptr) as [Hnil|Heq].
  - rewrite !(follow_offsets_nil m _ ptr o1 Hnil). cbn.
    unfold UnsafeIndirect. by rewrite Hz1, Hz2.
  - by rewrite Heq.
Qed.

End RuntimeProperties.

(** *** The further properties on the concrete run *)

Definition city_field_again : struct_field :=
  descriptor city_heap (Basic String) city_steps canonical_mangler.

Lemma name_heap_berlin_heap : name_heap ⊆ berlin_heap.
Proof.
  unfold berlin_heap.
  etrans; [|apply insert_subseteq; reflexivity].
  etrans; [|apply insert_subseteq; reflexivity].
  apply insert_subseteq; reflexivity.
Qed.

Lemma city_field_compiled_berlin :
  compiled latin1_only canonical_Get berlin_heap Person city_field.
Proof.
  exists ann_heap, ["Address"; "City"], city_heap.
  split; [done|]. split; [reflexivity|]. split; [exact city_field_found|].
  etrans; [exact city_heap_name_heap|exact name_heap_berlin_heap].
Qed.

Lemma bea_arrives : arrives berlin_heap 8192 (offsets city_field) 8448.
Proof.
  eapply arrives_step; [reflexivity|done|].
  eapply arrives_step; [reflexivity|done|].
  apply arrives_done.
Qed.

Lemma extract_field_present_witness :
  ∃ q v, arrives berlin_heap 8192 (offsets city_field) q ∧
         read_value berlin_heap (type2 city_field) q = Some v ∧
         extract_field berlin_heap 8192 city_field = Ok (eface (type2 city_field) v).
Proof.
  apply (extract_field_present latin1_only canonical_Get berlin_heap Person
           8192 city_field).
  - exact city_field_compiled_berlin.
  - reflexivity.
  - reflexivity.
  - intros Hnil. exact (reaches_nil_not_arrives _ _ _ _ Hnil bea_arrives).
Defined.

Lemma extract_fields_stable_witness :
  extract_fields berlin_heap ann_ptr [city_field; name_field]
    = Ok [ eface (Basic String) (VString ""); eface (Basic String) (VString "Ann") ].
Proof.
  apply (extract_fields_stable name_heap berlin_heap ann_ptr).
  - exact name_heap_berlin_heap.
  - reflexivity.
Defined.

Lemma deref_add_witness :
  deref berlin_heap 8208 (1 + 1) = q ← deref berlin_heap 8208 1; deref berlin_heap q 1.
Proof. apply (deref_add berlin_heap 8208 1 1); lia. Defined.

Lemma find_field_refuses_ascii_non_capital_witness :
  find_field latin1_only canonical_Get ann_heap Person ["address"; "City"]
    = Panic (field_is_not_exported "address").
Proof.
  apply (find_field_refuses_ascii_non_capital latin1_only canonical_Get
           ann_heap Person "a"%char "ddress" ["City"]).
  - reflexivity.
  - right. reflexivity.
Defined.


Lemma recompiled_descriptors_agree_witness :
  type2 city_field = type2 city_field_again ∧
  offsets city_field = offsets city_field_again ∧
  mangle city_field = mangle city_field_again ∧
  zerostr city_field = zerostr city_field_again ∧
  ∀ ptr, extract_field name_heap ptr city_field
         = extract_field name_heap ptr city_field_again.
Proof.
  apply (recompiled_descriptors_agree latin1_only canonical_Get
           ann_heap city_heap name_heap Person ["Address"; "City"]
           city_field city_field_again city_heap name_heap).
  - reflexivity.
  - reflexivity.
  - reflexivity.
  - exact city_heap_name_heap.
  - done.
Defined.

End Structr.
